(** * gobase/csp: Hoare's CSP stream transducers (csp.go)

    A shallow embedding of the transducer processes of package [csp]
    (COPY, SQUASH, SQUASH_EX, DISASSEMBLE, ASSEMBLE and the Reformat
    pipeline) together with the properties stated about them.

    Modelling conventions.
    - A [rune] is Go's int32, carried as a [Z].
    - A Go [string] is the sequence of its bytes, carried as a [string].
    - The input channel of a process is given by the list of values its
      supplier sends before closing it; a receive is a match on that list,
      the empty list being the receive that reports [ok = false].
    - The output channel of a process is the history of the operations
      performed on it ([Send v] and [Close], oldest first).  Sending on or
      closing a closed channel panics, as does an index out of range.
    - A process is a computation in the monad [proc E], which threads the
      output history and stops at the first panic. *)

From stdpp Require Import base list strings.
From Stdlib Require Import ZArith Lia Ascii.

Local Open Scope Z_scope.

(** ** Channels and the process monad *)

Inductive event (E : Type) : Type :=
  | Send (v : E)
  | Close.
Arguments Send {E} v.
Arguments Close {E}.

Definition chan (E : Type) : Type := list (event E).

Definition is_close {E} (e : event E) : bool :=
  match e with Close => true | Send _ => false end.

Definition closed {E} (ch : chan E) : bool := existsb is_close ch.

Inductive result (E A : Type) : Type :=
  | Ok (a : A) (east : chan E)
  | Panic (east : chan E).
Arguments Ok {E A} a east.
Arguments Panic {E A} east.

Definition proc (E A : Type) : Type := chan E → result E A.

Definition ret {E A} (a : A) : proc E A := λ ch, Ok a ch.

Definition bind {E A B} (m : proc E A) (k : A → proc E B) : proc E B :=
  λ ch, match m ch with
        | Ok a ch' => k a ch'
        | Panic ch' => Panic ch'
        end.

Definition panic {E A} : proc E A := λ ch, Panic ch.

Declare Scope proc_scope.
Delimit Scope proc_scope with proc.
Notation "x <- m ;; k" := (bind m (λ x, k))
  (at level 100, m at next level, right associativity) : proc_scope.
Notation "m ;; k" := (bind m (λ _, k))
  (at level 100, right associativity) : proc_scope.
Local Open Scope proc_scope.

(** [east <- v]: panics when [east] has been closed. *)
Definition send {E} (v : E) : proc E unit :=
  λ ch, if closed ch then Panic ch else Ok () (ch ++ [Send v]).

(** [close(east)]: panics when [east] has been closed already. *)
Definition close {E} : proc E unit :=
  λ ch, if closed ch then Panic ch else Ok () (ch ++ [Close]).

(** [if b { m }] with no else branch. *)
Definition when {E} (b : bool) (m : proc E unit) : proc E unit :=
  if b then m else ret ().

(** Running a process on a freshly made output channel. *)
Definition run {E A} (m : proc E A) : result E A := m [].

(** The values sent on the output channel during a run, in order. *)
Definition values {E} (ch : chan E) : list E :=
  flat_map (λ e, match e with Send v => [v] | Close => [] end) ch.

Definition sent {E A} (r : result E A) : list E :=
  match r with Ok _ ch => values ch | Panic ch => values ch end.

(** What the single reader of a channel receives from a history: the values
    in order once the channel was closed after them, and nothing usable
    ([None]) when the writer never closed it or wrote after the close. *)
Fixpoint drain {E} (ch : chan E) : option (list E) :=
  match ch with
  | [] => None
  | Close :: ch' => match ch' with [] => Some [] | _ => None end
  | Send v :: ch' => match drain ch' with Some vs => Some (v :: vs) | None => None end
  end.

(** ** Runes, slices and strings *)

Definition rune : Type := Z.

Definition asterisk : rune := 42.        (* '*' *)
Definition upward_arrow : rune := 8593.  (* U+2191 *)
Definition space : rune := 32.           (* ' ' *)

Definition chr (b : Z) : ascii := ascii_of_N (Z.to_N b).

(** [string(r)] for a rune: the UTF-8 encoding of the code point, after the
    runtime's [encoderune]; a value that is no Unicode scalar value is
    encoded as U+FFFD. *)
Definition rune_error : rune := 0xFFFD.

Definition encode3 (r : rune) : string :=
  String (chr (Z.lor 0xE0 (Z.shiftr r 12)))
    (String (chr (Z.lor 0x80 (Z.land (Z.shiftr r 6) 0x3F)))
       (String (chr (Z.lor 0x80 (Z.land r 0x3F))) EmptyString)).

Definition string_of_rune (r : rune) : string :=
  if (0 <=? r) && (r <=? 0x7F) then
    String (chr r) EmptyString
  else if (0 <=? r) && (r <=? 0x7FF) then
    String (chr (Z.lor 0xC0 (Z.shiftr r 6)))
      (String (chr (Z.lor 0x80 (Z.land r 0x3F))) EmptyString)
  else if (r <? 0) || (0x10FFFF <? r) || ((0xD800 <=? r) && (r <=? 0xDFFF)) then
    encode3 rune_error
  else if r <=? 0xFFFF then
    encode3 r
  else
    String (chr (Z.lor 0xF0 (Z.shiftr r 18)))
      (String (chr (Z.lor 0x80 (Z.land (Z.shiftr r 12) 0x3F)))
         (String (chr (Z.lor 0x80 (Z.land (Z.shiftr r 6) 0x3F)))
            (String (chr (Z.lor 0x80 (Z.land r 0x3F))) EmptyString))).

(** [string(s)] for a slice of runes: the encodings, concatenated. *)
Definition string_of_runes (s : list rune) : string :=
  foldr (λ r acc, string_of_rune r +:+ acc) EmptyString s.

(** [len(s)]. *)
Definition len {A} (s : list A) : Z := Z.of_nat (length s).

(** [s[i]] as a value: panics outside [0 <= i < len(s)]. *)
Definition index {E} (s : list rune) (i : Z) : proc E rune :=
  if (0 <=? i) && (i <? len s) then
    match s !! Z.to_nat i with
    | Some c => ret c
    | None => panic
    end
  else panic.

(** [s[i] = c]: panics outside [0 <= i < len(s)]. *)
Definition store {E} (s : list rune) (i : Z) (c : rune) : proc E (list rune) :=
  if (0 <=? i) && (i <? len s) then ret (<[Z.to_nat i := c]> s) else panic.

(** [for ; i < hi; i++ { body }], the body assigning neither [i] nor [hi]:
    [n] counts the iterations left, [st] is the state the body updates. *)
Fixpoint for_count {E S} (n : nat) (i : Z) (body : Z → S → proc E S) (st : S)
  : proc E S :=
  match n with
  | O => ret st
  | Datatypes.S n' => st' <- body i st ;; for_count n' (i + 1) body st'
  end.

Definition for_lt {E S} (i hi : Z) (body : Z → S → proc E S) (st : S) : proc E S :=
  for_count (Z.to_nat (hi - i)) i body st.

(** ** The processes of csp.go *)

(** func S31_COPY(west, east chan rune) *)
Fixpoint COPY_loop (west : list rune) : proc rune unit :=
  match west with
  | [] => ret ()
  | c :: west' => send c ;; COPY_loop west'
  end.

Definition S31_COPY (west : list rune) : proc rune unit :=
  COPY_loop west ;;
  close.

(** func S32_SQUASH(west, east chan rune) *)
Fixpoint SQUASH_loop (west : list rune) : proc rune unit :=
  match west with
  | [] => ret ()                                          (* !ok: break *)
  | c :: west1 =>
      when (negb (String.eqb (string_of_rune c) "*")) (send c) ;;
      if String.eqb (string_of_rune c) "*" then
        match west1 with
        | [] => ret ()                                    (* !ok: break *)
        | c :: west2 =>
            when (negb (String.eqb (string_of_rune c) "*"))
                 (send asterisk ;; send c) ;;
            when (String.eqb (string_of_rune c) "*")
                 (send upward_arrow) ;;
            SQUASH_loop west2
        end
      else SQUASH_loop west1
  end.

Definition S32_SQUASH (west : list rune) : proc rune unit :=
  SQUASH_loop west ;;
  close.

(** func S32_SQUASH_EX(west, east chan rune) *)
Fixpoint SQUASH_EX_loop (west : list rune) : proc rune unit :=
  match west with
  | [] => ret ()                                          (* !ok: break *)
  | c :: west1 =>
      when (negb (c =? asterisk)) (send c) ;;
      if c =? asterisk then
        match west1 with
        | [] => send asterisk ;; ret ()                   (* !ok: break *)
        | c :: west2 =>
            when (negb (c =? asterisk)) (send asterisk ;; send c) ;;
            when (c =? asterisk) (send upward_arrow) ;;
            SQUASH_EX_loop west2
        end
      else SQUASH_EX_loop west1
  end.

Definition S32_SQUASH_EX (west : list rune) : proc rune unit :=
  SQUASH_EX_loop west ;;
  close.

(** [s[:n]], used by the code only with [0 <= n <= len(s)]. *)
Definition slice_to {A} (s : list A) (n : Z) : list A := take (Z.to_nat n) s.

(** func S33_DISASSEMBLE(cardfile chan []rune, X chan rune) *)
Fixpoint DISASSEMBLE_loop (cardfile : list (list rune)) (cardimage : list rune)
  : proc rune unit :=
  match cardfile with
  | [] => ret ()
  | tmp :: cardfile' =>
      let cardimage :=
        if len tmp >? 80 then cardimage ++ slice_to tmp 80
        else cardimage ++ slice_to tmp (len tmp) in
      for_lt 0 (len cardimage) (λ i _, c <- index cardimage i ;; send c) () ;;
      send space ;;
      let cardimage := slice_to cardimage 0 in
      DISASSEMBLE_loop cardfile' cardimage
  end.

Definition S33_DISASSEMBLE (cardfile : list (list rune)) : proc rune unit :=
  let cardimage := [] in                           (* make([]rune, 0, 80) *)
  DISASSEMBLE_loop cardfile cardimage ;;
  close.

(** func S34_ASSEMBLE(X chan rune, lineprinter chan string) *)
Fixpoint ASSEMBLE_loop (X : list rune) (lineimage : list rune) (i : Z)
  : proc string (list rune * Z) :=
  match X with
  | [] => ret (lineimage, i)
  | c :: X' =>
      lineimage <- store lineimage i c ;;
      let i := if i <=? 124 then i + 1 else i in
      if i =? 125 then
        lineimage <- store lineimage (i - 1) c ;;
        send (string_of_runes lineimage) ;;
        ASSEMBLE_loop X' lineimage 0
      else ASSEMBLE_loop X' lineimage i
  end.

Definition S34_ASSEMBLE (X : list rune) : proc string unit :=
  let lineimage := replicate 125 0 in              (* make([]rune, 125) *)
  st <- ASSEMBLE_loop X lineimage 0 ;;
  let '(lineimage, i) := st in
  (if i >? 0 then
     lineimage <- for_lt i 125 (λ i lineimage, store lineimage i space) lineimage ;;
     send (string_of_runes lineimage)
   else ret ()) ;;
  close.

(** [go p] on a channel made for it: what the reader of that channel
    receives.  The writer is the only one to send on and close the channel
    and the hand-off keeps the order of the sends, so the reader sees the
    writer's values followed by the close.  A writer that panics, or that
    would leave its reader waiting for ever, stops the program. *)
Definition spawn {E E'} (p : proc E unit) : proc E' (list E) :=
  match run p with
  | Ok _ ch => match drain ch with Some vs => ret vs | None => panic end
  | Panic _ => panic
  end.

(** func S35_Reformat(cardfile chan []rune, lineprinter chan string) *)
Definition S35_Reformat (cardfile : list (list rune)) : proc string unit :=
  west <- spawn (S33_DISASSEMBLE cardfile) ;;
  east <- spawn (S31_COPY west) ;;
  S34_ASSEMBLE east.

(** func S36_ConwayProblem(cardfile chan []rune, lineprinter chan string) *)
Definition S36_ConwayProblem (cardfile : list (list rune)) : proc string unit :=
  west <- spawn (S33_DISASSEMBLE cardfile) ;;
  east <- spawn (S32_SQUASH_EX west) ;;
  S34_ASSEMBLE east.

(** ASSEMBLE reading what DISASSEMBLE writes, with no process in between. *)
Definition ASSEMBLE_of_DISASSEMBLE (cardfile : list (list rune)) : proc string unit :=
  X <- spawn (S33_DISASSEMBLE cardfile) ;;
  S34_ASSEMBLE X.

(** A run that sent [vs] and then closed the channel. *)
Definition finished {E} (vs : list E) : result E unit :=
  Ok () (map Send vs ++ [Close]).

(** [emits m vs a]: from any open channel, [m] sends exactly [vs], leaves
    the channel open and returns [a]. *)
Definition emits {E A} (m : proc E A) (vs : list E) (a : A) : Prop :=
  ∀ ch, closed ch = false → m ch = Ok a (ch ++ map Send vs).

(** [idle m]: on a closed channel [m] leaves the history as it is, whether
    it returns or panics. *)
Definition idle {E A} (m : proc E A) : Prop :=
  ∀ ch, closed ch = true → (∃ a, m ch = Ok a ch) ∨ m ch = Panic ch.

(** ** The streams the processes compute

    Pure functions on value lists, used to state what each loop sends. *)

(** SQUASH as a function on streams; [lenient] tells whether a marker left
    pending at the end of the input is sent ([S32_SQUASH_EX]) or dropped
    ([S32_SQUASH]). *)
Fixpoint squash (lenient : bool) (west : list rune) : list rune :=
  match west with
  | [] => []
  | c :: west1 =>
      if c =? asterisk then
        match west1 with
        | [] => if lenient then [asterisk] else []
        | d :: west2 =>
            (if d =? asterisk then [upward_arrow] else [asterisk; d])
              ++ squash lenient west2
        end
      else c :: squash lenient west1
  end.

(** The stream of a card file: each card cut to 80 columns, then a space. *)
Definition card_stream (cardfile : list (list rune)) : list rune :=
  flat_map (λ card, take 80 card ++ [space]) cardfile.

(** The last, partly filled line of ASSEMBLE: completed with spaces when
    there is one. *)
Definition last_line (tail : list rune) : list string :=
  match tail with
  | [] => []
  | _ => [string_of_runes (tail ++ replicate (125 - length tail) space)]
  end.

(** The cards of a file one after the other, a space after each. *)
Definition with_separators (cardfile : list (list rune)) : list rune :=
  flat_map (λ card, card ++ [space]) cardfile.

(** [[]rune(s)] for a string of ASCII characters. *)
Definition ascii_runes (s : string) : list rune :=
  map (λ a, Z.of_N (N_of_ascii a)) (String.list_ascii_of_string s).

(** The number of markers a stream starts with, and the number it ends
    with: the length of its last maximal run of markers. *)
Fixpoint leading_markers (west : list rune) : nat :=
  match west with
  | c :: west' => if c =? asterisk then S (leading_markers west') else O
  | [] => O
  end.

Definition trailing_markers (west : list rune) : nat :=
  leading_markers (reverse west).

(** ** Reasoning about processes *)

#[local] Arguments bind : simpl never.
#[local] Arguments ret : simpl never.
#[local] Arguments send : simpl never.
#[local] Arguments close : simpl never.
#[local] Arguments panic : simpl never.

Section process_facts.
Context {E : Type}.
Implicit Types (ch : chan E) (vs ws : list E).

Lemma closed_app ch1 ch2 : closed (ch1 ++ ch2) = closed ch1 || closed ch2.
Proof. unfold closed. apply existsb_app. Qed.

Lemma closed_sends vs : closed (map (@Send E) vs) = false.
Proof. induction vs as [|v vs IH]; [done | apply IH]. Qed.

Lemma values_sends vs : values (map Send vs) = vs.
Proof. induction vs as [|v vs IH]; [done | simpl; by rewrite IH]. Qed.

Lemma values_app ch1 ch2 : values (ch1 ++ ch2) = values ch1 ++ values ch2.
Proof. unfold values. by rewrite !flat_map_app. Qed.

Lemma sent_finished vs : sent (finished vs) = vs.
Proof.
  unfold finished, sent. rewrite values_app, values_sends. simpl.
  by rewrite app_nil_r.
Qed.

Lemma drain_finished vs : drain (map Send vs ++ [Close]) = Some vs.
Proof. induction vs as [|v vs IH]; [done | simpl; by rewrite IH]. Qed.

Lemma emits_ret {A} (a : A) : emits (E:=E) (ret a) [] a.
Proof. intros ch _. unfold ret. by rewrite app_nil_r. Qed.

Lemma emits_send (v : E) : emits (send v) [v] ().
Proof. intros ch Hch. unfold send. by rewrite Hch. Qed.

Lemma emits_bind {A B} (m : proc E A) (k : A → proc E B) vs ws a b :
  emits m vs a → emits (k a) ws b → emits (bind m k) (vs ++ ws) b.
Proof.
  intros Hm Hk ch Hch. unfold bind. rewrite (Hm ch Hch).
  rewrite Hk; [by rewrite map_app, app_assoc |].
  by rewrite closed_app, Hch, closed_sends.
Qed.

Lemma emits_eq {A} (m : proc E A) vs ws a : emits m vs a → vs = ws → emits m ws a.
Proof. by intros ? <-. Qed.

Lemma emits_when_true (m : proc E unit) vs :
  emits m vs () → emits (when true m) vs ().
Proof. done. Qed.

Lemma emits_when_false (m : proc E unit) : emits (when false m) [] ().
Proof. apply emits_ret. Qed.

Lemma run_then_close (m : proc E unit) vs :
  emits m vs () → run (m ;; close) = finished vs.
Proof.
  intros Hm. unfold run, bind. rewrite (Hm [] eq_refl). simpl.
  unfold close. by rewrite closed_sends.
Qed.

Lemma spawn_finished {E'} (p : proc E unit) vs :
  run p = finished vs → ∀ ch : chan E', spawn p ch = Ok vs ch.
Proof.
  intros Hp ch. unfold spawn. rewrite Hp. unfold finished.
  by rewrite drain_finished.
Qed.
End process_facts.

(** ** Runes and strings *)

Lemma chr_inj (a b : Z) : 0 ≤ a < 256 → 0 ≤ b < 256 → chr a = chr b → a = b.
Proof.
  intros Ha Hb Heq. unfold chr in Heq.
  apply (f_equal N_of_ascii) in Heq.
  rewrite !N_ascii_embedding in Heq by lia. lia.
Qed.

Lemma eqb_longer (a b x : ascii) (s : string) :
  String.eqb (String a (String b s)) (String x EmptyString) = false.
Proof. simpl. by destruct (Ascii.eqb a x). Qed.

(** [string(c) == "*"] holds for the rune ['*'] and for no other. *)
Lemma string_of_rune_asterisk (c : rune) :
  String.eqb (string_of_rune c) "*" = (c =? asterisk).
Proof.
  unfold string_of_rune, encode3, asterisk.
  destruct (Z.leb_spec 0 c), (Z.leb_spec c 0x7F); simpl.
  - destruct (Z.eqb_spec c 42) as [->|Hne]; [done |].
    destruct (Ascii.eqb_spec (chr c) "*") as [Heq|]; [| done].
    destruct Hne. by apply (chr_inj c 42); [lia | lia |].
  - destruct (Z.eqb_spec c 42); [lia |].
    repeat case_match; apply eqb_longer.
  - destruct (Z.eqb_spec c 42); [lia |].
    repeat case_match; apply eqb_longer.
  - destruct (Z.eqb_spec c 42); [lia |].
    repeat case_match; apply eqb_longer.
Qed.

Lemma append_nil_r (u : string) : u +:+ EmptyString = u.
Proof.
  induction u as [|a u IH]; [done |].
  change (String a (u +:+ EmptyString) = String a u). by rewrite IH.
Qed.

Lemma append_assoc (u v w : string) : (u +:+ v) +:+ w = u +:+ (v +:+ w).
Proof.
  induction u as [|a u IH]; [done |].
  change (String a ((u +:+ v) +:+ w) = String a (u +:+ (v +:+ w))).
  by rewrite IH.
Qed.

(** The string of a slice ends with the string of its last rune. *)
Lemma string_of_runes_snoc (s : list rune) (c : rune) :
  string_of_runes (s ++ [c]) = string_of_runes s +:+ string_of_rune c.
Proof.
  induction s as [|r s IH].
  - apply append_nil_r.
  - change (string_of_rune r +:+ string_of_runes (s ++ [c])
            = (string_of_rune r +:+ string_of_runes s) +:+ string_of_rune c).
    by rewrite IH, append_assoc.
Qed.

(** ** COPY *)

Lemma COPY_loop_emits (west : list rune) : emits (COPY_loop west) west ().
Proof.
  induction west as [|c west IH]; simpl.
  - apply emits_ret.
  - apply (emits_bind _ _ [c] west () ()); [apply emits_send | done].
Qed.

Lemma run_COPY (west : list rune) : run (S31_COPY west) = finished west.
Proof. apply run_then_close, COPY_loop_emits. Qed.

(** ** SQUASH *)

(** Induction for loops that read one or two values in a turn. *)
Lemma list_pair_ind {A} (P : list A → Prop) :
  P [] →
  (∀ x l, P l → (∀ y l', l = y :: l' → P l') → P (x :: l)) →
  ∀ l, P l.
Proof.
  intros Hnil Hstep l.
  enough (P l ∧ (∀ y l', l = y :: l' → P l')) as [? _] by done.
  induction l as [|x l [IH1 IH2]].
  - split; [done | discriminate].
  - split; [by apply Hstep |]. intros y l' [= <- <-]. done.
Qed.

Ltac emits_steps :=
  repeat match goal with
    | |- emits (ret _) _ _ => apply emits_ret
    | |- emits (send _) _ _ => apply emits_send
    | |- emits (when false _) _ _ => apply emits_when_false
    | |- emits (when true _) _ _ => apply emits_when_true
    | |- emits (bind _ _) _ _ => eapply emits_bind
    end.

Lemma SQUASH_loop_emits (west : list rune) :
  emits (SQUASH_loop west) (squash false west) ().
Proof.
  induction west as [|c west1 IH1 IH2] using list_pair_ind; [apply emits_ret |].
  simpl. rewrite string_of_rune_asterisk.
  destruct (c =? asterisk) eqn:Hc; simpl.
  - destruct west1 as [|d west2].
    + eapply emits_eq; [emits_steps | done].
    + rewrite string_of_rune_asterisk.
      specialize (IH2 d west2 eq_refl).
      destruct (d =? asterisk); simpl;
        (eapply emits_eq; [emits_steps; apply IH2 | done]).
  - eapply emits_eq; [emits_steps; apply IH1 | done].
Qed.

Lemma SQUASH_EX_loop_emits (west : list rune) :
  emits (SQUASH_EX_loop west) (squash true west) ().
Proof.
  induction west as [|c west1 IH1 IH2] using list_pair_ind; [apply emits_ret |].
  simpl.
  destruct (c =? asterisk) eqn:Hc; simpl.
  - destruct west1 as [|d west2].
    + eapply emits_eq; [emits_steps | done].
    + specialize (IH2 d west2 eq_refl).
      destruct (d =? asterisk); simpl;
        (eapply emits_eq; [emits_steps; apply IH2 | done]).
  - eapply emits_eq; [emits_steps; apply IH1 | done].
Qed.

Lemma run_SQUASH (west : list rune) :
  run (S32_SQUASH west) = finished (squash false west).
Proof. apply run_then_close, SQUASH_loop_emits. Qed.

Lemma run_SQUASH_EX (west : list rune) :
  run (S32_SQUASH_EX west) = finished (squash true west).
Proof. apply run_then_close, SQUASH_EX_loop_emits. Qed.

(** A stream that does not end in a marker leaves no marker pending, so
    what follows it is squashed on its own. *)
Lemma squash_app (b : bool) (p q : list rune) :
  last p ≠ Some asterisk →
  squash b (p ++ q) = squash false p ++ squash b q.
Proof.
  induction p as [|c p1 IH1 IH2] using list_pair_ind; [done |].
  intros Hlast. simpl.
  destruct (Z.eqb_spec c asterisk) as [->|Hc].
  - destruct p1 as [|d p2]; [done |]. simpl.
    rewrite <- app_assoc. f_equal.
    apply (IH2 d p2 eq_refl).
    destruct p2 as [|e p3]; [done |]. by rewrite !last_cons_cons in Hlast.
  - rewrite IH1; [done |].
    destruct p1 as [|d p2]; [done |]. by rewrite last_cons_cons in Hlast.
Qed.

Lemma squash_settled (b : bool) (p : list rune) :
  last p ≠ Some asterisk → squash b p = squash false p.
Proof.
  intros Hp. rewrite <- (app_nil_r p) at 1.
  rewrite squash_app by done. destruct b; apply app_nil_r.
Qed.

Lemma squash_markers_even (b : bool) (k : nat) (r : list rune) :
  squash b (replicate (2 * k) asterisk ++ r) = replicate k upward_arrow ++ squash b r.
Proof.
  induction k as [|k IH]; [done |].
  replace (2 * S k)%nat with (S (S (2 * k))) by lia.
  simpl replicate. simpl. by rewrite <- IH.
Qed.

Lemma squash_markers_odd (b : bool) (k : nat) (v : rune) (r : list rune) :
  v ≠ asterisk →
  squash b (replicate (2 * k + 1) asterisk ++ v :: r)
  = replicate k upward_arrow ++ [asterisk; v] ++ squash b r.
Proof.
  intros Hv.
  rewrite replicate_add, <- app_assoc, squash_markers_even. f_equal.
  simpl. by destruct (Z.eqb_spec v asterisk).
Qed.

Lemma squash_markers_odd_end (b : bool) (k : nat) :
  squash b (replicate (2 * k + 1) asterisk)
  = replicate k upward_arrow ++ (if b then [asterisk] else []).
Proof.
  rewrite replicate_add, squash_markers_even. done.
Qed.

Lemma markers_end (west : list rune) :
  ∃ p, west = p ++ replicate (trailing_markers west) asterisk
       ∧ last p ≠ Some asterisk.
Proof.
  unfold trailing_markers.
  enough (∀ l : list rune, ∃ q, l = replicate (leading_markers l) asterisk ++ q
                                ∧ head q ≠ Some asterisk) as Hlead.
  { destruct (Hlead (reverse west)) as (q & Hq & Hhead).
    exists (reverse q). split; [| by rewrite last_reverse].
    rewrite <- (reverse_involutive west) at 1. rewrite Hq at 1.
    by rewrite reverse_app, reverse_replicate. }
  induction l as [|c l (q & Hq & Hhead)]; [by exists [] |].
  simpl. destruct (Z.eqb_spec c asterisk) as [->|Hc].
  - exists q. split; [simpl; by rewrite <- Hq | done].
  - exists (c :: l). split; [done |]. simpl. congruence.
Qed.

(** ** DISASSEMBLE *)

Lemma len_app {A} (s t : list A) : len (s ++ t) = len s + len t.
Proof. unfold len. rewrite length_app. lia. Qed.

Lemma bind_ret {E A B} (a : A) (k : A → proc E B) (ch : chan E) :
  bind (ret a) k ch = k a ch.
Proof. done. Qed.

Lemma index_middle {E} (pre rest : list rune) (c : rune) :
  index (E:=E) (pre ++ c :: rest) (len pre) = ret c.
Proof.
  unfold index. rewrite len_app. unfold len. simpl length.
  rewrite (proj2 (Z.leb_le _ _)) by lia.
  rewrite (proj2 (Z.ltb_lt _ _)) by lia.
  simpl. rewrite Nat2Z.id.
  by rewrite list_lookup_middle.
Qed.

Lemma send_slice_emits (rest pre : list rune) :
  emits (for_count (length rest) (len pre)
           (λ i _, c <- index (pre ++ rest) i ;; send c) ())
        rest ().
Proof.
  revert pre. induction rest as [|c rest IH]; intros pre; [apply emits_ret |].
  simpl. rewrite index_middle.
  eapply emits_eq; [emits_steps |].
  - replace (len pre + 1) with (len (pre ++ [c])) by (rewrite len_app; done).
    replace (pre ++ c :: rest) with ((pre ++ [c]) ++ rest)
      by (by rewrite <- app_assoc).
    apply IH.
  - done.
Qed.

Lemma card_columns (tmp : list rune) :
  (if len tmp >? 80 then [] ++ slice_to tmp 80 else [] ++ slice_to tmp (len tmp))
  = take 80 tmp.
Proof.
  unfold slice_to, len. simpl. destruct (Z.gtb_spec (Z.of_nat (length tmp)) 80).
  - done.
  - rewrite Nat2Z.id, firstn_all. symmetry. apply take_ge. lia.
Qed.

Lemma DISASSEMBLE_loop_emits (cardfile : list (list rune)) :
  emits (DISASSEMBLE_loop cardfile []) (card_stream cardfile) ().
Proof.
  induction cardfile as [|tmp cardfile IH]; [apply emits_ret |].
  cbn [DISASSEMBLE_loop]. rewrite card_columns.
  replace (slice_to (take 80 tmp) 0) with (@nil rune) by done.
  unfold for_lt. rewrite Z.sub_0_r. unfold len at 1. rewrite Nat2Z.id.
  eapply emits_eq; [emits_steps |].
  - apply (send_slice_emits (take 80 tmp) []).
  - apply IH.
  - simpl. by rewrite <- app_assoc.
Qed.

Lemma run_DISASSEMBLE (cardfile : list (list rune)) :
  run (S33_DISASSEMBLE cardfile) = finished (card_stream cardfile).
Proof. apply run_then_close, DISASSEMBLE_loop_emits. Qed.

(** ** ASSEMBLE *)

Lemma store_middle {E} (pre post : list rune) (o c : rune) :
  store (E:=E) (pre ++ o :: post) (len pre) c = ret (pre ++ c :: post).
Proof.
  unfold store. rewrite len_app. unfold len. simpl length.
  rewrite (proj2 (Z.leb_le _ _)) by lia.
  rewrite (proj2 (Z.ltb_lt _ _)) by lia.
  simpl. rewrite Nat2Z.id.
  replace (length pre) with (length pre + 0)%nat at 1 by lia.
  by rewrite insert_app_r.
Qed.

(** Below the last column the loop only stores: [old] is overwritten by the
    values read, nothing is printed. *)
Lemma ASSEMBLE_loop_partial (X pre old post : list rune) (ch : chan string) :
  length old = length X →
  (length pre + length X < 125)%nat →
  ASSEMBLE_loop X (pre ++ old ++ post) (len pre) ch
  = Ok (pre ++ X ++ post, len pre + len X) ch.
Proof.
  revert pre old. induction X as [|c X IH]; intros pre old Hold Hlen.
  - destruct old; [| done]. simpl. unfold ret, len. simpl. by rewrite Z.add_0_r.
  - destruct old as [|o old]; [done |]. simpl in Hold, Hlen.
    cbn [ASSEMBLE_loop]. rewrite <- app_comm_cons, store_middle, bind_ret.
    assert ((len pre <=? 124) = true) as -> by (unfold len; lia).
    assert ((len pre + 1 =? 125) = false) as -> by (unfold len; lia).
    replace (len pre + 1) with (len (pre ++ [c])) by (by rewrite len_app).
    replace (pre ++ c :: old ++ post) with ((pre ++ [c]) ++ old ++ post)
      by (by rewrite <- app_assoc).
    rewrite IH; [| lia | rewrite length_app; simpl; lia].
    rewrite <- app_assoc, len_app. simpl. f_equal. f_equal.
    unfold len. simpl length. lia.
Qed.

(** The values that fill the line up to its last column: the line printed
    is the columns already filled followed by these values, the last of
    them in column 125. *)
Lemma ASSEMBLE_loop_line (X pre old Y : list rune) (ch : chan string) :
  X ≠ [] →
  length old = length X →
  (length pre + length X = 125)%nat →
  ASSEMBLE_loop (X ++ Y) (pre ++ old) (len pre) ch
  = (send (string_of_runes (pre ++ X)) ;; ASSEMBLE_loop Y (pre ++ X) 0) ch.
Proof.
  revert pre old. induction X as [|c X IH]; intros pre old HX Hold Hlen; [done |].
  destruct old as [|o old]; [done |]. simpl in Hold, Hlen.
  rewrite <- app_comm_cons. cbn [ASSEMBLE_loop].
  rewrite store_middle, bind_ret.
  assert ((len pre <=? 124) = true) as -> by (unfold len; lia).
  destruct X as [|d X].
  - destruct old; [| done].
    assert ((len pre + 1 =? 125) = true) as -> by (unfold len; simpl in Hlen; lia).
    replace (len pre + 1 - 1) with (len pre) by lia.
    by rewrite store_middle, bind_ret.
  - assert ((len pre + 1 =? 125) = false) as -> by (unfold len; simpl in Hlen; lia).
    replace (len pre + 1) with (len (pre ++ [c])) by (by rewrite len_app).
    replace (pre ++ c :: old) with ((pre ++ [c]) ++ old)
      by (by rewrite <- app_assoc).
    rewrite IH; [| done | lia | rewrite length_app; simpl in *; lia].
    by rewrite <- !app_assoc.
Qed.

(** Whole lines: each is printed as it is, whatever the buffer held. *)
Lemma ASSEMBLE_loop_lines (ls : list (list rune)) (Y li : list rune) :
  Forall (λ l, length l = 125%nat) ls →
  length li = 125%nat →
  ∃ li', length li' = 125%nat ∧
    ∀ ch, closed ch = false →
      ASSEMBLE_loop (concat ls ++ Y) li 0 ch
      = ASSEMBLE_loop Y li' 0 (ch ++ map Send (map string_of_runes ls)).
Proof.
  intros Hls. revert li. induction Hls as [|l ls Hl Hls IH]; intros li Hli.
  - exists li. split; [done |]. intros ch _. simpl. by rewrite app_nil_r.
  - destruct (IH l Hl) as (li' & Hli' & Hrun).
    exists li'. split; [done |]. intros ch Hch.
    simpl concat. rewrite <- app_assoc.
    change (ASSEMBLE_loop (l ++ concat ls ++ Y) li 0 ch)
      with (ASSEMBLE_loop (l ++ concat ls ++ Y) ([] ++ li) (len (@nil rune)) ch).
    rewrite ASSEMBLE_loop_line; [| by intros -> | lia | simpl; lia].
    simpl app at 1. unfold bind. rewrite (emits_send _ ch Hch). simpl app at 1.
    rewrite Hrun by (by rewrite closed_app, Hch).
    by rewrite <- app_assoc.
Qed.

(** The loop that completes the last line with spaces. *)
Lemma pad_line (old pre : list rune) (ch : chan string) :
  for_count (length old) (len pre) (λ i li, store li i space) (pre ++ old) ch
  = Ok (pre ++ replicate (length old) space) ch.
Proof.
  revert pre. induction old as [|o old IH]; intros pre.
  - simpl. by rewrite !app_nil_r.
  - simpl. rewrite store_middle, bind_ret.
    replace (len pre + 1) with (len (pre ++ [space])) by (by rewrite len_app).
    replace (pre ++ space :: old) with ((pre ++ [space]) ++ old)
      by (by rewrite <- app_assoc).
    rewrite IH. by rewrite <- app_assoc.
Qed.

(** What ASSEMBLE prints for a stream cut into whole lines and a rest. *)
Lemma run_ASSEMBLE (ls : list (list rune)) (tail : list rune) :
  Forall (λ l, length l = 125%nat) ls →
  (length tail < 125)%nat →
  run (S34_ASSEMBLE (concat ls ++ tail))
  = finished (map string_of_runes ls ++ last_line tail).
Proof.
  intros Hls Htail. unfold S34_ASSEMBLE, run.
  destruct (ASSEMBLE_loop_lines ls tail (replicate 125 0) Hls)
    as (li & Hli & Hrun); [by rewrite length_replicate |].
  unfold bind at 1. rewrite Hrun by done. simpl app at 1.
  rewrite <- (take_drop (length tail) li).
  rewrite (ASSEMBLE_loop_partial tail [] (take (length tail) li)
             (drop (length tail) li));
    [| rewrite length_take; lia | simpl; lia].
  simpl app. replace (len [] + len tail) with (len tail) by done.
  unfold finished. rewrite map_app, <- app_assoc.
  destruct tail as [|c tail].
  - simpl. unfold bind, ret, close.
    by rewrite closed_sends.
  - assert ((len (c :: tail) >? 0) = true) as ->
      by (rewrite Z.gtb_ltb; apply Z.ltb_lt; unfold len; simpl length; lia).
    set (t := c :: tail) in *.
    unfold for_lt.
    replace (Z.to_nat (125 - len t)) with (length (drop (length t) li))
      by (rewrite length_drop; unfold len; lia).
    unfold bind. rewrite pad_line.
    rewrite length_drop, Hli.
    unfold send, close. rewrite closed_sends.
    rewrite closed_app, closed_sends. simpl.
    by rewrite <- app_assoc.
Qed.

(** Every stream is a sequence of whole lines followed by a shorter rest. *)
Lemma lines_and_rest (X : list rune) :
  ∃ ls tail, X = concat ls ++ tail
             ∧ Forall (λ l, length l = 125%nat) ls
             ∧ (length tail < 125)%nat.
Proof.
  induction X as [X IH] using (induction_ltof1 _ (@length rune)).
  unfold ltof in IH.
  destruct (decide (length X < 125)%nat) as [Hlt|Hge].
  - exists [], X. by repeat split.
  - destruct (IH (drop 125 X)) as (ls & tail & Heq & Hls & Htail).
    { rewrite length_drop. lia. }
    exists (take 125 X :: ls), tail. repeat split; [| | done].
    + simpl. rewrite <- app_assoc, <- Heq. by rewrite take_drop.
    + constructor; [| done]. rewrite length_take. lia.
Qed.

(** ** Streams that end in a run of markers *)

Lemma squash_even_run (b : bool) (p : list rune) (k : nat) :
  last p ≠ Some asterisk →
  squash b (p ++ replicate (2 * k) asterisk)
  = squash false p ++ replicate k upward_arrow.
Proof.
  intros Hp. rewrite squash_app by done. f_equal.
  rewrite <- (app_nil_r (replicate (2 * k) asterisk)).
  rewrite squash_markers_even. simpl. by rewrite !app_nil_r.
Qed.

Lemma squash_odd_run (b : bool) (p : list rune) (k : nat) :
  last p ≠ Some asterisk →
  squash b (p ++ replicate (2 * k + 1) asterisk)
  = squash false p ++ replicate k upward_arrow ++ (if b then [asterisk] else []).
Proof.
  intros Hp. rewrite squash_app by done. f_equal. apply squash_markers_odd_end.
Qed.

Lemma even_markers_end (west : list rune) :
  Nat.even (trailing_markers west) = true →
  ∃ p k, west = p ++ replicate (2 * k) asterisk ∧ last p ≠ Some asterisk.
Proof.
  intros Heven. destruct (markers_end west) as (p & Hwest & Hp).
  apply Nat.even_spec in Heven as [k Hk].
  exists p, k. by rewrite <- Hk.
Qed.

(** * The properties of the processes *)

(** ** COPY *)

(** C8. For every finite input stream, COPY sends exactly the values it
    receives, unchanged and in the order received, one for each, and then
    closes its output: no other value is sent. *)
Theorem copy_identity (west : list rune) :
  run (S31_COPY west) = finished west
  ∧ length (sent (run (S31_COPY west))) = length west.
Proof.
  rewrite run_COPY. split; [done |]. by rewrite sent_finished.
Qed.

(** ** SQUASH *)

(** C1. A maximal run of markers in the input (the stream [p] before it does
    not end in a marker, the stream [r] after it does not start with one) is
    squashed on its own, by S32_SQUASH and by S32_SQUASH_EX alike: a run of
    [2k] markers gives [k] arrows; a run of [2k+1] markers followed by a
    value [v] gives [k] arrows, the marker and [v].  So "a**b" gives "a↑b"
    and "a***b" gives "a↑*b". *)
Theorem squash_runs (p r : list rune) (k : nat) :
  last p ≠ Some asterisk →
  head r ≠ Some asterisk →
  (run (S32_SQUASH (p ++ replicate (2 * k) asterisk ++ r))
     = finished (sent (run (S32_SQUASH p)) ++ replicate k upward_arrow
                   ++ sent (run (S32_SQUASH r)))
   ∧ run (S32_SQUASH_EX (p ++ replicate (2 * k) asterisk ++ r))
     = finished (sent (run (S32_SQUASH_EX p)) ++ replicate k upward_arrow
                   ++ sent (run (S32_SQUASH_EX r))))
  ∧ (∀ v r', r = v :: r' →
       run (S32_SQUASH (p ++ replicate (2 * k + 1) asterisk ++ r))
         = finished (sent (run (S32_SQUASH p)) ++ replicate k upward_arrow
                       ++ [asterisk; v] ++ sent (run (S32_SQUASH r')))
       ∧ run (S32_SQUASH_EX (p ++ replicate (2 * k + 1) asterisk ++ r))
         = finished (sent (run (S32_SQUASH_EX p)) ++ replicate k upward_arrow
                       ++ [asterisk; v] ++ sent (run (S32_SQUASH_EX r'))))
  ∧ run (S32_SQUASH (ascii_runes "a**b")) = finished [97; upward_arrow; 98]
  ∧ run (S32_SQUASH_EX (ascii_runes "a**b")) = finished [97; upward_arrow; 98]
  ∧ run (S32_SQUASH (ascii_runes "a***b"))
    = finished [97; upward_arrow; asterisk; 98]
  ∧ run (S32_SQUASH_EX (ascii_runes "a***b"))
    = finished [97; upward_arrow; asterisk; 98].
Proof.
  intros Hp Hr.
  rewrite !run_SQUASH, !run_SQUASH_EX, !sent_finished.
  rewrite (squash_settled true p Hp).
  split; [| split; [| done]].
  - by rewrite (squash_app false), (squash_app true),
         !squash_markers_even by done.
  - intros v r' ->.
    assert (v ≠ asterisk) as Hv by (simpl in Hr; congruence).
    rewrite !run_SQUASH, !run_SQUASH_EX, !sent_finished.
    by rewrite (squash_app false), (squash_app true),
         !squash_markers_odd by done.
Qed.

Lemma squash_runs_witness :
  last [97; 42; 98] ≠ Some asterisk
  ∧ head [99; 42] ≠ Some asterisk
  ∧ run (S32_SQUASH ([97; 42; 98] ++ replicate (2 * 2) asterisk ++ [99; 42]))
    = finished (sent (run (S32_SQUASH [97; 42; 98])) ++ replicate 2 upward_arrow
                  ++ sent (run (S32_SQUASH [99; 42])))
  ∧ run (S32_SQUASH_EX ([97; 42; 98] ++ replicate (2 * 2 + 1) asterisk ++ [99; 42]))
    = finished (sent (run (S32_SQUASH_EX [97; 42; 98])) ++ replicate 2 upward_arrow
                  ++ [asterisk; 99] ++ sent (run (S32_SQUASH_EX [42]))).
Proof.
  assert (last [97; 42; 98] ≠ Some asterisk) as Hp by (vm_compute; discriminate).
  assert (head [99; 42] ≠ Some asterisk) as Hr by (vm_compute; discriminate).
  split; [exact Hp |]. split; [exact Hr |].
  destruct (squash_runs [97; 42; 98] [99; 42] 2 Hp Hr) as ((Heven & _) & Hodd & _).
  split; [exact Heven |].
  exact (proj2 (Hodd 99 [42] eq_refl)).
Defined.

(** C4. When the input ends in a marker that has no partner (the stream
    before it ends in an even number of markers), S32_SQUASH_EX sends that
    marker as it is before closing its output and S32_SQUASH drops it: for
    "ab*" the first sends "ab*" and the second "ab". *)
Theorem squash_dangling_marker (west : list rune) :
  Nat.even (trailing_markers west) = true →
  run (S32_SQUASH_EX (west ++ [asterisk]))
    = finished (sent (run (S32_SQUASH_EX west)) ++ [asterisk])
  ∧ run (S32_SQUASH (west ++ [asterisk])) = run (S32_SQUASH west)
  ∧ run (S32_SQUASH_EX (ascii_runes "ab*")) = finished (ascii_runes "ab*")
  ∧ run (S32_SQUASH (ascii_runes "ab*")) = finished (ascii_runes "ab").
Proof.
  intros Heven.
  destruct (even_markers_end west Heven) as (p & k & -> & Hp).
  rewrite !run_SQUASH, !run_SQUASH_EX, !sent_finished.
  rewrite <- !app_assoc.
  change [asterisk] with (replicate 1 asterisk).
  rewrite <- !replicate_add.
  rewrite !squash_odd_run, !squash_even_run by done.
  repeat split; [by rewrite <- app_assoc | by rewrite app_nil_r].
Qed.

Lemma squash_dangling_marker_witness :
  Nat.even (trailing_markers [97; 42; 42]) = true
  ∧ run (S32_SQUASH_EX ([97; 42; 42] ++ [asterisk]))
    = finished (sent (run (S32_SQUASH_EX [97; 42; 42])) ++ [asterisk])
  ∧ run (S32_SQUASH ([97; 42; 42] ++ [asterisk])) = run (S32_SQUASH [97; 42; 42]).
Proof.
  split; [reflexivity |].
  destruct (squash_dangling_marker [97; 42; 42] eq_refl) as (Hex & Hstrict & _).
  split; [exact Hex | exact Hstrict].
Defined.

(** C10. On every input whose last maximal run of markers has even length
    (inputs without markers and the empty input among them) no marker is
    pending when the input ends, and S32_SQUASH and S32_SQUASH_EX produce
    the same output. *)
Theorem squash_strict_lenient_agree (west : list rune) :
  Nat.even (trailing_markers west) = true →
  run (S32_SQUASH west) = run (S32_SQUASH_EX west).
Proof.
  intros Heven.
  destruct (even_markers_end west Heven) as (p & k & -> & Hp).
  by rewrite run_SQUASH, run_SQUASH_EX, !squash_even_run.
Qed.

Lemma squash_strict_lenient_agree_witness :
  Nat.even (trailing_markers [42; 97; 42; 42; 42; 42]) = true
  ∧ run (S32_SQUASH [42; 97; 42; 42; 42; 42])
    = run (S32_SQUASH_EX [42; 97; 42; 42; 42; 42]).
Proof.
  split; [reflexivity |].
  apply (squash_strict_lenient_agree [42; 97; 42; 42; 42; 42]). reflexivity.
Defined.

(** ** DISASSEMBLE *)

Lemma card_stream_app (before after : list (list rune)) :
  card_stream (before ++ after) = card_stream before ++ card_stream after.
Proof. unfold card_stream. apply flat_map_app. Qed.

(** C3. For every record [r] of the card file, DISASSEMBLE sends the values
    of [r] in order and then one space when [r] has at most 80 values
    ([len(r) + 1] values, nothing added to a short record), and the first 80
    values of [r] and then one space when it has more. *)
Theorem disassemble_record (before after : list (list rune)) (r : list rune) :
  run (S33_DISASSEMBLE (before ++ r :: after))
    = finished (sent (run (S33_DISASSEMBLE before))
                  ++ ((if decide (length r ≤ 80)%nat then r else take 80 r) ++ [space])
                  ++ sent (run (S33_DISASSEMBLE after)))
  ∧ run (S33_DISASSEMBLE [r])
    = finished ((if decide (length r ≤ 80)%nat then r else take 80 r) ++ [space])
  ∧ length (sent (run (S33_DISASSEMBLE [r])))
    = (if decide (length r ≤ 80)%nat then length r + 1 else 81)%nat.
Proof.
  rewrite !run_DISASSEMBLE, !sent_finished.
  assert ((if decide (length r ≤ 80)%nat then r else take 80 r) = take 80 r) as ->.
  { case_decide; [| done]. symmetry. by apply take_ge. }
  split; [| split].
  - rewrite card_stream_app. simpl. by rewrite <- !app_assoc.
  - simpl. by rewrite app_nil_r.
  - cbn [card_stream flat_map]. rewrite app_nil_r, length_app, length_take.
    cbn [length]. case_decide; lia.
Qed.

(** ** ASSEMBLE *)

(** C2. The value [c] that fills column 125 of a line is the last value of
    the line ASSEMBLE prints at that moment (the line is the 124 values
    before it, then [c]), whatever lines came before and whatever follows;
    and an input of exactly 125 values is printed as one line of these 125
    values, nothing added, with no other output. *)
Theorem assemble_full_line (ls : list (list rune)) (pre Y : list rune) (c : rune) :
  Forall (λ l, length l = 125%nat) ls →
  length pre = 124%nat →
  (∃ more, run (S34_ASSEMBLE (concat ls ++ (pre ++ [c]) ++ Y))
           = Ok () (map Send (map string_of_runes ls)
                      ++ Send (string_of_runes pre +:+ string_of_rune c) :: more))
  ∧ run (S34_ASSEMBLE (pre ++ [c])) = finished [string_of_runes (pre ++ [c])].
Proof.
  intros Hls Hpre. rewrite <- string_of_runes_snoc.
  assert (length (pre ++ [c]) = 125%nat) as Hline
    by (rewrite length_app; simpl; lia).
  split.
  - destruct (lines_and_rest Y) as (ls' & tail & -> & Hls' & Htail).
    exists (map Send (map string_of_runes ls' ++ last_line tail) ++ [Close]).
    replace (concat ls ++ (pre ++ [c]) ++ concat ls' ++ tail)
      with (concat (ls ++ (pre ++ [c]) :: ls') ++ tail)
      by (rewrite concat_app; simpl; by rewrite <- !app_assoc).
    rewrite run_ASSEMBLE; [| | done].
    + unfold finished. rewrite !map_app. simpl. by rewrite <- !app_assoc.
    + apply Forall_app. split; [done |]. by constructor.
  - pose proof (run_ASSEMBLE [pre ++ [c]] []) as Hrun.
    simpl in Hrun. rewrite !app_nil_r in Hrun.
    apply Hrun; [by repeat constructor | lia].
Qed.

Lemma assemble_full_line_witness :
  Forall (λ l, length l = 125%nat) [replicate 125 97]
  ∧ length (replicate 124 98) = 124%nat
  ∧ (∃ more, run (S34_ASSEMBLE (concat [replicate 125 97]
                                  ++ (replicate 124 98 ++ [99]) ++ [100; 101]))
             = Ok () (map Send (map string_of_runes [replicate 125 97])
                        ++ Send (string_of_runes (replicate 124 98) +:+ string_of_rune 99)
                             :: more))
  ∧ run (S34_ASSEMBLE (replicate 124 98 ++ [99]))
    = finished [string_of_runes (replicate 124 98 ++ [99])].
Proof.
  assert (Forall (λ l, length l = 125%nat) [replicate 125 97]) as Hls
    by (repeat constructor).
  assert (length (replicate 124 98) = 124%nat) as Hpre by reflexivity.
  split; [exact Hls |]. split; [exact Hpre |].
  exact (assemble_full_line [replicate 125 97] (replicate 124 98) [100; 101] 99
           Hls Hpre).
Defined.

(** C5. When the input closes on a partly filled line, ASSEMBLE completes
    the line with spaces and prints it as its last line of 125 values; when
    it closes on an empty line, nothing more is printed.  An input of 130
    values gives one line of the first 125 and a second line of the last 5
    followed by 120 spaces. *)
Theorem assemble_last_line (ls : list (list rune)) (tail : list rune) :
  Forall (λ l, length l = 125%nat) ls →
  (length tail < 125)%nat →
  (tail = [] →
     run (S34_ASSEMBLE (concat ls ++ tail)) = finished (map string_of_runes ls))
  ∧ (tail ≠ [] →
     run (S34_ASSEMBLE (concat ls ++ tail))
       = finished (map string_of_runes ls
                     ++ [string_of_runes (tail ++ replicate (125 - length tail) space)])
     ∧ length (tail ++ replicate (125 - length tail) space) = 125%nat)
  ∧ (∀ X, length X = 130%nat →
     run (S34_ASSEMBLE X)
       = finished [string_of_runes (take 125 X);
                   string_of_runes (drop 125 X ++ replicate 120 space)]).
Proof.
  intros Hls Htail. pose proof (run_ASSEMBLE ls tail Hls Htail) as Hrun.
  split; [| split].
  - intros ->. rewrite Hrun. simpl. by rewrite app_nil_r.
  - intros Hne. split.
    + rewrite Hrun. by destruct tail.
    + rewrite length_app, length_replicate. lia.
  - intros X HX.
    assert (length (drop 125 X) = 5%nat) as Ht by (rewrite length_drop; lia).
    pose proof (run_ASSEMBLE [take 125 X] (drop 125 X)) as H130.
    simpl in H130. rewrite app_nil_r, take_drop in H130.
    rewrite H130; [| repeat constructor; rewrite length_take; lia | lia].
    unfold last_line. rewrite Ht.
    by destruct (drop 125 X).
Qed.

Lemma assemble_last_line_witness :
  Forall (λ l, length l = 125%nat) [replicate 125 97]
  ∧ (length (replicate 5 98) < 125)%nat
  ∧ run (S34_ASSEMBLE (replicate 125 97 ++ replicate 5 98))
    = finished [string_of_runes (replicate 125 97);
                string_of_runes (replicate 5 98 ++ replicate 120 space)].
Proof.
  assert (Forall (λ l, length l = 125%nat) [replicate 125 97]) as Hls
    by (repeat constructor).
  assert (length (replicate 5 98) < 125)%nat as Htail by (simpl; lia).
  split; [exact Hls |]. split; [exact Htail |].
  destruct (assemble_last_line [replicate 125 97] (replicate 5 98) Hls Htail)
    as (_ & Hlast & _).
  refine (proj1 (Hlast _)). discriminate.
Defined.

(** ** The pipelines *)

(** C6. For cards of exactly 80 values each whose stream with separators
    has a length that is a multiple of 125, ASSEMBLE applied to what
    DISASSEMBLE sends prints that very stream, cut into lines of 125 values,
    with nothing added. *)
Theorem assemble_disassemble_roundtrip (cardfile : list (list rune)) :
  Forall (λ card, length card = 80%nat) cardfile →
  (length (with_separators cardfile) `mod` 125 = 0)%nat →
  ∃ ls, concat ls = with_separators cardfile
        ∧ Forall (λ l, length l = 125%nat) ls
        ∧ run (ASSEMBLE_of_DISASSEMBLE cardfile) = finished (map string_of_runes ls).
Proof.
  intros Hcards.
  assert (card_stream cardfile = with_separators cardfile) as Hstream.
  { unfold card_stream, with_separators.
    induction Hcards as [|card cardfile Hcard _ IH]; [done |].
    simpl. rewrite IH. f_equal. f_equal. apply take_ge. lia. }
  intros Hmod.
  destruct (lines_and_rest (with_separators cardfile))
    as (ls & tail & Heq & Hls & Htail).
  assert (tail = []) as ->.
  { apply length_zero_iff_nil.
    assert (length (concat ls) = 125 * length ls)%nat as Hlen.
    { clear Heq. induction Hls as [|l ls Hl _ IH]; [done |].
      simpl. rewrite length_app, IH. lia. }
    rewrite Heq, length_app, Hlen in Hmod.
    rewrite Nat.add_comm, (Nat.mul_comm 125), Nat.Div0.mod_add in Hmod.
    by rewrite Nat.mod_small in Hmod. }
  exists ls. rewrite app_nil_r in Heq. split; [done |]. split; [done |].
  unfold ASSEMBLE_of_DISASSEMBLE, run, bind.
  rewrite (spawn_finished _ _ (run_DISASSEMBLE cardfile)).
  rewrite Hstream, Heq.
  pose proof (run_ASSEMBLE ls [] Hls) as Hrun.
  rewrite !app_nil_r in Hrun. apply Hrun. simpl. lia.
Qed.

Lemma assemble_disassemble_roundtrip_witness :
  Forall (λ card, length card = 80%nat) (replicate 125 (replicate 80 97))
  ∧ (length (with_separators (replicate 125 (replicate 80 97%Z))) `mod` 125 = 0)%nat
  ∧ ∃ ls, concat ls = with_separators (replicate 125 (replicate 80 97))
          ∧ Forall (λ l, length l = 125%nat) ls
          ∧ run (ASSEMBLE_of_DISASSEMBLE (replicate 125 (replicate 80 97)))
            = finished (map string_of_runes ls).
Proof.
  assert (Forall (λ card, length card = 80%nat) (replicate 125 (replicate 80 97)))
    as Hcards by (apply Forall_replicate; reflexivity).
  assert (length (with_separators (replicate 125 (replicate 80 97%Z))) `mod` 125
          = 0)%nat as Hmod by (vm_compute; reflexivity).
  split; [exact Hcards |]. split; [exact Hmod |].
  exact (assemble_disassemble_roundtrip _ Hcards Hmod).
Defined.

(** C7. Reformat (DISASSEMBLE, COPY and ASSEMBLE in a row), given one card
    of 80 values and then the end of its input, prints exactly one line of
    125 values: the 80 values of the card in order, the space that follows
    the card, and 44 spaces that complete the line. *)
Theorem reformat_one_card (card : list rune) :
  length card = 80%nat →
  run (S35_Reformat [card])
    = finished [string_of_runes (card ++ [space] ++ replicate 44 space)]
  ∧ length (card ++ [space] ++ replicate 44 space) = 125%nat.
Proof.
  intros Hcard. split; [| rewrite !length_app, length_replicate; simpl; lia].
  unfold S35_Reformat, run, bind.
  rewrite (spawn_finished _ _ (run_DISASSEMBLE [card])).
  rewrite (spawn_finished _ _ (run_COPY _)).
  unfold card_stream. simpl flat_map. rewrite app_nil_r, take_ge by lia.
  pose proof (run_ASSEMBLE [] (card ++ [space])) as Hrun.
  change (concat [] ++ card ++ [space]) with (card ++ [space]) in Hrun.
  unfold run in Hrun. rewrite Hrun; [| done | rewrite length_app; simpl; lia].
  unfold last_line.
  assert (length (card ++ [space]) = 81%nat) as ->
    by (rewrite length_app; simpl; lia).
  simpl. rewrite <- app_assoc. by destruct card.
Qed.

Lemma reformat_one_card_witness :
  length (replicate 80 97) = 80%nat
  ∧ run (S35_Reformat [replicate 80 97])
    = finished [string_of_runes (replicate 80 97 ++ [space] ++ replicate 44 space)].
Proof.
  split; [reflexivity |].
  exact (proj1 (reformat_one_card (replicate 80 97) eq_refl)).
Defined.

(** C9. Run on a finite input stream, each of COPY, SQUASH, SQUASH_EX,
    DISASSEMBLE and ASSEMBLE reads its input to the end and terminates with
    an output history made of finitely many sends followed by one close:
    the output is closed exactly once and nothing is sent after the close. *)
Theorem transducers_close_once :
  (∀ west, ∃ vs, run (S31_COPY west) = Ok () (map Send vs ++ [Close]))
  ∧ (∀ west, ∃ vs, run (S32_SQUASH west) = Ok () (map Send vs ++ [Close]))
  ∧ (∀ west, ∃ vs, run (S32_SQUASH_EX west) = Ok () (map Send vs ++ [Close]))
  ∧ (∀ cardfile, ∃ vs, run (S33_DISASSEMBLE cardfile) = Ok () (map Send vs ++ [Close]))
  ∧ (∀ X, ∃ lines, run (S34_ASSEMBLE X) = Ok () (map Send lines ++ [Close])).
Proof.
  repeat split.
  - intros west. exists west. apply run_COPY.
  - intros west. eexists. apply run_SQUASH.
  - intros west. eexists. apply run_SQUASH_EX.
  - intros cardfile. eexists. apply run_DISASSEMBLE.
  - intros X. destruct (lines_and_rest X) as (ls & tail & -> & Hls & Htail).
    eexists. by apply run_ASSEMBLE.
Qed.

(** * Further properties of the processes *)

(** ** More on SQUASH *)

Lemma squash_marker_free (b : bool) (west : list rune) :
  Forall (λ c, c ≠ asterisk) west → squash b west = west.
Proof.
  induction 1 as [|c west Hc _ IH]; [done |].
  simpl. destruct (Z.eqb_spec c asterisk); [done |]. by rewrite IH.
Qed.

Lemma squash_no_marker_pair (b : bool) (west pre post : list rune) :
  squash b west ≠ pre ++ [asterisk; asterisk] ++ post.
Proof.
  revert pre.
  induction west as [|c west1 IH1 IH2] using list_pair_ind; intros pre.
  - by destruct pre.
  - simpl. destruct (Z.eqb_spec c asterisk) as [->|Hc].
    + destruct west1 as [|d west2].
      * destruct b; destruct pre as [|? [|? ?]]; discriminate.
      * specialize (IH2 d west2 eq_refl).
        destruct (Z.eqb_spec d asterisk) as [->|Hd].
        -- destruct pre as [|e pre]; [discriminate |].
           intros [= _ Heq]. by apply (IH2 pre).
        -- destruct pre as [|e [|e' pre]].
           ++ intros [= Heq]. by destruct Hd.
           ++ intros [= _ Heq]. by destruct Hd.
           ++ intros [= _ _ Heq]. by apply (IH2 pre).
    + destruct pre as [|e pre].
      * intros [= Heq]. by destruct Hc.
      * intros [= _ Heq]. by apply (IH1 pre).
Qed.

Lemma squash_strict_last (west : list rune) :
  last (squash false west) ≠ Some asterisk.
Proof.
  induction west as [|c west1 IH1 IH2] using list_pair_ind; [done |].
  simpl. destruct (Z.eqb_spec c asterisk) as [->|Hc].
  - destruct west1 as [|d west2]; [done |].
    specialize (IH2 d west2 eq_refl).
    destruct (Z.eqb_spec d asterisk) as [->|Hd]; simpl;
      destruct (squash false west2) eqn:Hsq; simpl; try done; congruence.
  - destruct (squash false west1) eqn:Hsq; simpl; [congruence | done].
Qed.

(** A stream without two markers in a row, and without a marker at its end
    when that one would be dropped, is left as it is. *)
Lemma squash_fixed (b : bool) (l : list rune) :
  (∀ pre post, l ≠ pre ++ [asterisk; asterisk] ++ post) →
  (b = false → last l ≠ Some asterisk) →
  squash b l = l.
Proof.
  induction l as [|c l1 IH1 IH2] using list_pair_ind; [done |].
  intros Hpair Hlast. simpl.
  destruct (Z.eqb_spec c asterisk) as [->|Hc].
  - destruct l1 as [|d l2].
    + destruct b; [done |]. by destruct Hlast.
    + destruct (Z.eqb_spec d asterisk) as [->|Hd].
      * by destruct (Hpair [] l2).
      * simpl. rewrite (IH2 d l2 eq_refl); [done | |].
        -- intros pre post ->. by apply (Hpair (asterisk :: d :: pre) post).
        -- intros Hb. specialize (Hlast Hb).
           destruct l2 as [|e l3]; [done |]. by rewrite !last_cons_cons in Hlast.
  - rewrite IH1; [done | |].
    + intros pre post ->. by apply (Hpair (c :: pre) post).
    + intros Hb. specialize (Hlast Hb).
      destruct l1 as [|d l2]; [done |]. by rewrite last_cons_cons in Hlast.
Qed.

Lemma squash_idempotent (b : bool) (west : list rune) :
  squash b (squash b west) = squash b west.
Proof.
  apply squash_fixed.
  - intros pre post. apply squash_no_marker_pair.
  - intros ->. apply squash_strict_last.
Qed.

Lemma squash_lenient_strict (west : list rune) :
  squash true west
  = squash false west
      ++ (if Nat.odd (trailing_markers west) then [asterisk] else []).
Proof.
  destruct (markers_end west) as (p & Hwest & Hp).
  set (n := trailing_markers west) in *. clearbody n. subst west.
  destruct (Nat.Even_or_Odd n) as [[k ->]|[k ->]].
  - rewrite !squash_even_run by done.
    replace (Nat.odd (2 * k)) with false; [by rewrite app_nil_r |].
    symmetry. rewrite <- Nat.negb_even.
    by rewrite (proj2 (Nat.even_spec (2 * k))) by (by exists k).
  - rewrite !squash_odd_run by done.
    replace (Nat.odd (2 * k + 1)) with true; [by rewrite app_nil_r, <- !app_assoc |].
    symmetry. apply Nat.odd_spec. by exists k.
Qed.

Lemma squash_length (b : bool) (west : list rune) :
  (length (squash b west) ≤ length west
   ∧ length west ≤ 2 * length (squash b west) + (if b then 0 else 1))%nat.
Proof.
  induction west as [|c west1 IH1 IH2] using list_pair_ind.
  - simpl. destruct b; lia.
  - simpl. destruct (Z.eqb_spec c asterisk) as [->|Hc].
    + destruct west1 as [|d west2]; [destruct b; simpl; lia |].
      specialize (IH2 d west2 eq_refl).
      destruct (d =? asterisk); simpl; lia.
    + simpl. lia.
Qed.

(** X1. A stream that holds no marker goes through S32_SQUASH and through
    S32_SQUASH_EX unchanged. *)
Theorem squash_marker_free_identity (west : list rune) :
  Forall (λ c, c ≠ asterisk) west →
  run (S32_SQUASH west) = finished west
  ∧ run (S32_SQUASH_EX west) = finished west.
Proof.
  intros Hfree. by rewrite run_SQUASH, run_SQUASH_EX, !squash_marker_free.
Qed.

Lemma squash_marker_free_identity_witness :
  Forall (λ c, c ≠ asterisk) [97; 8593; 32; 98]
  ∧ run (S32_SQUASH [97; 8593; 32; 98]) = finished [97; 8593; 32; 98]
  ∧ run (S32_SQUASH_EX [97; 8593; 32; 98]) = finished [97; 8593; 32; 98].
Proof.
  assert (Forall (λ c, c ≠ asterisk) [97; 8593; 32; 98]) as Hfree
    by (repeat constructor; discriminate).
  split; [exact Hfree |].
  exact (squash_marker_free_identity [97; 8593; 32; 98] Hfree).
Defined.

(** X2. Neither S32_SQUASH nor S32_SQUASH_EX ever sends two markers in a
    row, and the last value S32_SQUASH sends is never a marker. *)
Theorem squash_never_pairs (west pre post : list rune) :
  sent (run (S32_SQUASH west)) ≠ pre ++ [asterisk; asterisk] ++ post
  ∧ sent (run (S32_SQUASH_EX west)) ≠ pre ++ [asterisk; asterisk] ++ post
  ∧ last (sent (run (S32_SQUASH west))) ≠ Some asterisk.
Proof.
  rewrite run_SQUASH, run_SQUASH_EX, !sent_finished.
  split; [apply squash_no_marker_pair |].
  split; [apply squash_no_marker_pair | apply squash_strict_last].
Qed.

(** X3. Squashing is idempotent: either process, fed what it sent, sends the
    same values again. *)
Theorem squash_twice (west : list rune) :
  run (S32_SQUASH (sent (run (S32_SQUASH west)))) = run (S32_SQUASH west)
  ∧ run (S32_SQUASH_EX (sent (run (S32_SQUASH_EX west)))) = run (S32_SQUASH_EX west).
Proof.
  by rewrite !run_SQUASH, !run_SQUASH_EX, !sent_finished, !squash_idempotent.
Qed.

(** X4. On every input S32_SQUASH_EX sends what S32_SQUASH sends, followed
    by one marker when the input ends in an odd number of markers and by
    nothing otherwise. *)
Theorem squash_lenient_extends_strict (west : list rune) :
  run (S32_SQUASH_EX west)
  = finished (sent (run (S32_SQUASH west))
                ++ (if Nat.odd (trailing_markers west) then [asterisk] else [])).
Proof.
  by rewrite run_SQUASH, run_SQUASH_EX, sent_finished, squash_lenient_strict.
Qed.

(** X5. Squashing never lengthens a stream and at most halves it: the
    output of either process is no longer than its input, the input is at
    most twice as long as the output of S32_SQUASH_EX, and at most one more
    than twice as long as the output of S32_SQUASH. *)
Theorem squash_output_length (west : list rune) :
  (length (sent (run (S32_SQUASH west))) ≤ length west
   ∧ length (sent (run (S32_SQUASH_EX west))) ≤ length west
   ∧ length west ≤ 2 * length (sent (run (S32_SQUASH_EX west)))
   ∧ length west ≤ 2 * length (sent (run (S32_SQUASH west))) + 1)%nat.
Proof.
  rewrite run_SQUASH, run_SQUASH_EX, !sent_finished.
  pose proof (squash_length false west). pose proof (squash_length true west).
  simpl in *. lia.
Qed.

(** X6. The test [string(c) == "*"] of S32_SQUASH holds for the rune ['*']
    and for no other rune, valid code point or not: it is the test
    [c == '*'] of S32_SQUASH_EX. *)
Theorem squash_tests_agree (c : rune) :
  String.eqb (string_of_rune c) "*" = true ↔ c = asterisk.
Proof.
  rewrite string_of_rune_asterisk. apply Z.eqb_eq.
Qed.

(** ** More on ASSEMBLE *)

Lemma length_concat_lines (ls : list (list rune)) :
  Forall (λ l, length l = 125%nat) ls →
  length (concat ls) = (125 * length ls)%nat.
Proof.
  induction 1 as [|l ls Hl _ IH]; [done |].
  simpl. rewrite length_app, IH. lia.
Qed.

Lemma whole_lines (X : list rune) :
  (length X `mod` 125 = 0)%nat →
  ∃ ls, X = concat ls ∧ Forall (λ l, length l = 125%nat) ls.
Proof.
  intros Hmod. destruct (lines_and_rest X) as (ls & tail & -> & Hls & Htail).
  exists ls. split; [| done].
  rewrite length_app, length_concat_lines in Hmod by done.
  rewrite Nat.add_comm, (Nat.mul_comm 125), Nat.Div0.mod_add in Hmod.
  rewrite Nat.mod_small in Hmod by done.
  apply length_zero_iff_nil in Hmod as ->. by rewrite app_nil_r.
Qed.

(** The lines ASSEMBLE prints, as slices of runes. *)
Lemma printed_lines (ls : list (list rune)) (tail : list rune) :
  Forall (λ l, length l = 125%nat) ls →
  (length tail < 125)%nat →
  ∃ ls', map string_of_runes ls ++ last_line tail = map string_of_runes ls'
         ∧ Forall (λ l, length l = 125%nat) ls'
         ∧ concat ls'
           = (concat ls ++ tail)
               ++ replicate (125 * length ls' - length (concat ls ++ tail)) space
         ∧ (length (concat ls ++ tail) ≤ 125 * length ls'
            < length (concat ls ++ tail) + 125)%nat.
Proof.
  intros Hls Htail. pose proof (length_concat_lines ls Hls) as Hlen.
  destruct tail as [|c tail].
  - exists ls. rewrite !app_nil_r, Hlen, Nat.sub_diag. simpl.
    rewrite !app_nil_r. repeat split; [done | lia | lia].
  - set (t := c :: tail) in *.
    exists (ls ++ [t ++ replicate (125 - length t) space]).
    assert (last_line t = [string_of_runes (t ++ replicate (125 - length t) space)])
      as -> by done.
    assert (0 < length t)%nat as Hpos by (simpl; lia).
    clearbody t.
    assert (length (t ++ replicate (125 - length t) space) = 125%nat) as Hpad
      by (rewrite length_app, length_replicate; lia).
    rewrite map_app, concat_app, !length_app, Hlen.
    cbn [concat map length]. rewrite app_nil_r, <- app_assoc.
    repeat split; [| | lia | lia].
    + apply Forall_app. split; [done | by constructor].
    + do 3 f_equal. lia.
Qed.

(** ASSEMBLE on an open channel that has carried values already. *)
Lemma ASSEMBLE_open (ls : list (list rune)) (tail : list rune) (ch : chan string) :
  Forall (λ l, length l = 125%nat) ls →
  (length tail < 125)%nat →
  closed ch = false →
  S34_ASSEMBLE (concat ls ++ tail) ch
  = Ok () (ch ++ map Send (map string_of_runes ls ++ last_line tail) ++ [Close]).
Proof.
  intros Hls Htail Hch. unfold S34_ASSEMBLE.
  destruct (ASSEMBLE_loop_lines ls tail (replicate 125 0) Hls)
    as (li & Hli & Hrun); [by rewrite length_replicate |].
  unfold bind at 1. rewrite Hrun by done.
  rewrite <- (take_drop (length tail) li).
  rewrite (ASSEMBLE_loop_partial tail [] (take (length tail) li)
             (drop (length tail) li));
    [| rewrite length_take; lia | simpl; lia].
  simpl app at 1. replace (len [] + len tail) with (len tail) by done.
  rewrite map_app, <- !app_assoc.
  assert (closed (ch ++ map Send (map string_of_runes ls)) = false) as Hch'
    by (by rewrite closed_app, Hch, closed_sends).
  destruct tail as [|c tail].
  - simpl. unfold bind, ret, close. rewrite Hch'. by rewrite <- app_assoc.
  - assert ((len (c :: tail) >? 0) = true) as ->
      by (rewrite Z.gtb_ltb; apply Z.ltb_lt; unfold len; simpl length; lia).
    set (t := c :: tail) in *.
    unfold for_lt.
    replace (Z.to_nat (125 - len t)) with (length (drop (length t) li))
      by (rewrite length_drop; unfold len; lia).
    unfold bind. rewrite pad_line.
    rewrite length_drop, Hli.
    unfold send, close. rewrite Hch'.
    rewrite closed_app, Hch'. simpl.
    by rewrite <- !app_assoc.
Qed.

(** X7. Whatever its input, ASSEMBLE prints lines of exactly 125 values
    each; put end to end they are the input followed by fewer than 125
    spaces, none when the length of the input is a multiple of 125 (and no
    line at all for the empty input). *)
Theorem assemble_lines (X : list rune) :
  ∃ ls, run (S34_ASSEMBLE X) = finished (map string_of_runes ls)
        ∧ Forall (λ l, length l = 125%nat) ls
        ∧ concat ls = X ++ replicate (125 * length ls - length X) space
        ∧ (length X ≤ 125 * length ls < length X + 125)%nat.
Proof.
  destruct (lines_and_rest X) as (ls & tail & -> & Hls & Htail).
  destruct (printed_lines ls tail Hls Htail) as (ls' & Heq & Hls' & Hcat & Hlen).
  exists ls'. by rewrite run_ASSEMBLE, Heq.
Qed.

(** X8. After a stream whose length is a multiple of 125, ASSEMBLE starts
    afresh: the lines printed for [X ++ Y] are those printed for [X]
    followed by those printed for [Y]. *)
Theorem assemble_append (X Y : list rune) :
  (length X `mod` 125 = 0)%nat →
  run (S34_ASSEMBLE (X ++ Y))
  = finished (sent (run (S34_ASSEMBLE X)) ++ sent (run (S34_ASSEMBLE Y))).
Proof.
  intros Hmod. destruct (whole_lines X Hmod) as (ls & -> & Hls).
  destruct (lines_and_rest Y) as (ls' & tail & -> & Hls' & Htail).
  pose proof (run_ASSEMBLE ls [] Hls) as HX.
  rewrite !app_nil_r in HX. rewrite HX by (simpl; lia).
  rewrite (run_ASSEMBLE ls' tail Hls' Htail), !sent_finished.
  rewrite app_assoc, <- concat_app.
  rewrite run_ASSEMBLE; [| by apply Forall_app | done].
  by rewrite map_app, <- app_assoc.
Qed.

Lemma assemble_append_witness :
  (length (replicate 250 97) `mod` 125 = 0)%nat
  ∧ run (S34_ASSEMBLE (replicate 250 97 ++ [98; 99]))
    = finished (sent (run (S34_ASSEMBLE (replicate 250 97)))
                  ++ sent (run (S34_ASSEMBLE [98; 99]))).
Proof.
  split; [reflexivity |].
  exact (assemble_append (replicate 250 97) [98; 99] eq_refl).
Defined.

(** X9. The loop of ASSEMBLE keeps its state well formed: started with a
    line buffer of 125 cells and an index [i] between 0 and 124 on an open
    channel, it ends, for any input, without panic, with a buffer of 125
    cells and the index [(i + len(X)) mod 125], again between 0 and 124,
    having printed [(i + len(X)) / 125] lines. *)
Theorem assemble_loop_invariant (X li : list rune) (i : Z) (ch : chan string) :
  length li = 125%nat →
  0 ≤ i ≤ 124 →
  closed ch = false →
  ∃ li' lines,
    ASSEMBLE_loop X li i ch
    = Ok (li', (i + len X) `mod` 125) (ch ++ map Send lines)
    ∧ length li' = 125%nat
    ∧ 0 ≤ (i + len X) `mod` 125 ≤ 124
    ∧ len lines = (i + len X) `div` 125.
Proof.
  revert li i ch. induction X as [|c X IH]; intros li i ch Hli Hi Hch.
  - exists li, []. unfold len. simpl. rewrite Z.add_0_r, app_nil_r.
    rewrite Z.mod_small, Z.div_small by lia. by repeat split; try lia.
  - cbn [ASSEMBLE_loop]. unfold store at 1.
    assert (len li = 125) as Hlen by (unfold len; lia).
    rewrite Hlen.
    rewrite (proj2 (Z.leb_le 0 i)), (proj2 (Z.ltb_lt i 125)) by lia.
    cbn [andb]. rewrite bind_ret.
    rewrite (proj2 (Z.leb_le i 124)) by lia.
    set (li1 := <[Z.to_nat i := c]> li).
    assert (length li1 = 125%nat) as Hli1 by (unfold li1; by rewrite length_insert).
    assert (len (c :: X) = len X + 1) as -> by (unfold len; simpl length; lia).
    destruct (Z.eqb_spec (i + 1) 125) as [Hfull|Hnot].
    + unfold store.
      assert (len li1 = 125) as -> by (unfold len; lia).
      rewrite (proj2 (Z.leb_le 0 (i + 1 - 1))), (proj2 (Z.ltb_lt (i + 1 - 1) 125))
        by lia.
      cbn [andb]. rewrite bind_ret.
      set (li2 := <[Z.to_nat (i + 1 - 1) := c]> li1).
      assert (length li2 = 125%nat) as Hli2
        by (unfold li2; by rewrite length_insert).
      unfold bind. rewrite (emits_send _ ch Hch).
      destruct (IH li2 0 (ch ++ map Send [string_of_runes li2]) Hli2)
        as (li' & lines & Hrun & Hli' & Hidx & Hcount);
        [lia | by rewrite closed_app, Hch |].
      exists li', (string_of_runes li2 :: lines).
      rewrite Hrun, <- app_assoc.
      replace (i + (len X + 1)) with (0 + len X + 1 * 125) by lia.
      rewrite Z.mod_add, Z.div_add by lia.
      repeat split; [done | lia | lia |].
      unfold len in *. simpl length. lia.
    + destruct (IH li1 (i + 1) ch Hli1) as (li' & lines & Hrun & Hli' & Hidx & Hcount);
        [lia | done |].
      exists li', lines. rewrite Hrun.
      replace (i + (len X + 1)) with (i + 1 + len X) by lia.
      by repeat split; try lia.
Qed.

Lemma assemble_loop_invariant_witness :
  length (replicate 125 0) = 125%nat
  ∧ 0 ≤ 120 ≤ 124
  ∧ closed [Send "x"] = false
  ∧ ∃ li' lines,
      ASSEMBLE_loop (replicate 135 97) (replicate 125 0) 120 [Send "x"]
      = Ok (li', (120 + len (replicate 135 97)) `mod` 125)
           ([Send "x"] ++ map Send lines)
      ∧ length li' = 125%nat
      ∧ 0 ≤ (120 + len (replicate 135 97)) `mod` 125 ≤ 124
      ∧ len lines = (120 + len (replicate 135 97)) `div` 125.
Proof.
  assert (0 ≤ 120 ≤ 124) as Hi by lia.
  split; [reflexivity |]. split; [exact Hi |]. split; [reflexivity |].
  exact (assemble_loop_invariant (replicate 135 97) (replicate 125 0) 120
           [Send "x"] eq_refl Hi eq_refl).
Defined.

(** ** The bytes of a printed line *)

Lemma length_append (u v : string) :
  String.length (u +:+ v) = (String.length u + String.length v)%nat.
Proof.
  induction u as [|a u IH]; [done |].
  change (S (String.length (u +:+ v)) = S (String.length u + String.length v)).
  by rewrite IH.
Qed.

Lemma string_of_rune_length (r : rune) :
  (1 ≤ String.length (string_of_rune r) ≤ 4)%nat
  ∧ (0 ≤ r ≤ 127 → String.length (string_of_rune r) = 1%nat).
Proof.
  unfold string_of_rune, encode3.
  destruct (Z.leb_spec 0 r), (Z.leb_spec r 0x7F); simpl;
    repeat case_match; simpl; split; try lia.
Qed.

Lemma string_of_runes_length (l : list rune) :
  (length l ≤ String.length (string_of_runes l) ≤ 4 * length l)%nat
  ∧ (Forall (λ r, 0 ≤ r ≤ 127) l → String.length (string_of_runes l) = length l).
Proof.
  induction l as [|r l [IH1 IH2]]; [done |].
  change (string_of_runes (r :: l)) with (string_of_rune r +:+ string_of_runes l).
  rewrite length_append. cbn [length].
  destruct (string_of_rune_length r) as [Hr1 Hr2].
  split; [lia |]. intros Hascii. inversion Hascii as [|? ? Hr Hl]; subst.
  rewrite Hr2, IH2 by done. done.
Qed.

Lemma Forall_of_concat {A} (P : A → Prop) (ls : list (list A)) :
  Forall P (concat ls) → Forall (Forall P) ls.
Proof.
  induction ls as [|l ls IH]; [done |].
  simpl. rewrite Forall_app. intros [Hl Hls]. constructor; [done | by apply IH].
Qed.

(** X10. Every line ASSEMBLE prints is a string of at least 125 and at most
    500 bytes: 125 runes of one to four bytes each. *)
Theorem assemble_line_bytes (X : list rune) :
  Forall (λ line, (125 ≤ String.length line ≤ 500)%nat)
         (sent (run (S34_ASSEMBLE X))).
Proof.
  destruct (lines_and_rest X) as (ls & tail & -> & Hls & Htail).
  destruct (printed_lines ls tail Hls Htail) as (ls' & Heq & Hls' & _).
  rewrite run_ASSEMBLE, sent_finished, Heq by done.
  apply Forall_fmap. eapply Forall_impl; [exact Hls' |].
  intros l Hl. simpl in *. pose proof (proj1 (string_of_runes_length l)). lia.
Qed.

(** X11. When every value of the input is an ASCII character, every line
    ASSEMBLE prints is a string of exactly 125 bytes, the completed last
    line too. *)
Theorem assemble_ascii_line_bytes (X : list rune) :
  Forall (λ r, 0 ≤ r ≤ 127) X →
  Forall (λ line, String.length line = 125%nat) (sent (run (S34_ASSEMBLE X))).
Proof.
  intros Hascii.
  destruct (lines_and_rest X) as (ls & tail & -> & Hls & Htail).
  destruct (printed_lines ls tail Hls Htail) as (ls' & Heq & Hls' & Hcat & _).
  rewrite run_ASSEMBLE, sent_finished, Heq by done.
  assert (Forall (Forall (λ r, 0 ≤ r ≤ 127)) ls') as Hall.
  { apply Forall_of_concat. unfold rune in *. rewrite Hcat. apply Forall_app. split; [done |].
    apply Forall_replicate. unfold space. lia. }
  apply Forall_fmap. clear Heq Hcat.
  induction Hls' as [|l ls' Hl _ IH]; [done |].
  inversion Hall as [|? ? Hal Hals]; subst.
  constructor; [| by apply IH].
  simpl. by rewrite (proj2 (string_of_runes_length l)).
Qed.

Lemma assemble_ascii_line_bytes_witness :
  Forall (λ r, 0 ≤ r ≤ 127) (replicate 130 97)
  ∧ Forall (λ line, String.length line = 125%nat)
           (sent (run (S34_ASSEMBLE (replicate 130 97)))).
Proof.
  assert (Forall (λ r, 0 ≤ r ≤ 127) (replicate 130 97)) as Hascii
    by (apply Forall_replicate; lia).
  split; [exact Hascii |].
  exact (assemble_ascii_line_bytes (replicate 130 97) Hascii).
Defined.

(** ** More on DISASSEMBLE *)

Lemma card_stream_length (cardfile : list (list rune)) :
  length (card_stream cardfile)
  = sum_list (map (λ card, length card `min` 80 + 1)%nat cardfile).
Proof.
  induction cardfile as [|card cardfile IH]; [done |].
  unfold card_stream in *. cbn [flat_map map sum_list sum_list_with].
  rewrite !length_app, IH, length_take. cbn [length]. unfold id.
  by rewrite (Nat.min_comm 80).
Qed.

Lemma card_stream_last (cardfile : list (list rune)) :
  last (card_stream cardfile) ≠ Some asterisk.
Proof.
  induction cardfile as [|card cardfile _] using rev_ind; [done |].
  rewrite card_stream_app. unfold card_stream at 2. cbn [flat_map].
  rewrite app_nil_r, !app_assoc, last_snoc. discriminate.
Qed.

Lemma card_stream_whole (cardfile : list (list rune)) :
  Forall (λ card, length card = 80%nat) cardfile →
  card_stream cardfile = with_separators cardfile.
Proof.
  unfold card_stream, with_separators.
  induction 1 as [|card cardfile Hcard _ IH]; [done |].
  simpl. rewrite IH. do 2 f_equal. apply take_ge. lia.
Qed.

Lemma with_separators_inj (a b : list (list rune)) :
  Forall (λ card, length card = 80%nat) a →
  Forall (λ card, length card = 80%nat) b →
  with_separators a = with_separators b → a = b.
Proof.
  intros Ha. revert b. induction Ha as [|c a Hc _ IH]; intros b Hb Heq.
  - destruct Hb as [|d b _ _]; [done |]. by destruct d.
  - destruct Hb as [|d b Hd Hb]; [by destruct c |].
    unfold with_separators in Heq. cbn [flat_map] in Heq.
    rewrite <- !app_assoc in Heq.
    apply app_inj_1 in Heq as [-> Heq]; [| congruence].
    f_equal. apply IH; [done |]. by injection Heq.
Qed.

(** X12. DISASSEMBLE sends, for each card, its first 80 values at most and
    then one space, whatever the card: the number of values sent is the sum
    over the cards of [min(len(card), 80) + 1], at least one and at most 81
    for each card, and none for an empty card file. *)
Theorem disassemble_count (cardfile : list (list rune)) :
  length (sent (run (S33_DISASSEMBLE cardfile)))
  = sum_list (map (λ card, length card `min` 80 + 1)%nat cardfile)
  ∧ (length cardfile ≤ length (sent (run (S33_DISASSEMBLE cardfile)))
     ≤ 81 * length cardfile)%nat.
Proof.
  rewrite run_DISASSEMBLE, sent_finished, card_stream_length.
  split; [done |].
  induction cardfile as [|card cardfile IH]; [simpl; lia |].
  unfold sum_list in *. cbn [map sum_list_with length].
  revert IH. generalize (sum_list_with id
    (map (λ card0 : list rune, length card0 `min` 80 + 1)%nat cardfile)).
  unfold id. lia.
Qed.

(** X13. On card files whose cards all have exactly 80 values DISASSEMBLE
    loses nothing: two such files that make it send the same stream are the
    same file. *)
Theorem disassemble_injective (a b : list (list rune)) :
  Forall (λ card, length card = 80%nat) a →
  Forall (λ card, length card = 80%nat) b →
  run (S33_DISASSEMBLE a) = run (S33_DISASSEMBLE b) →
  a = b.
Proof.
  intros Ha Hb Hrun. apply (f_equal sent) in Hrun.
  rewrite !run_DISASSEMBLE, !sent_finished, !card_stream_whole in Hrun by done.
  by apply with_separators_inj.
Qed.

Lemma disassemble_injective_witness :
  Forall (λ card, length card = 80%nat) [replicate 80 97; replicate 80 32]
  ∧ run (S33_DISASSEMBLE [replicate 80 97; replicate 80 32])
    = run (S33_DISASSEMBLE [replicate 80 97; replicate 80 32])
  ∧ [replicate 80 97; replicate 80 32] = [replicate 80 97; replicate 80 32].
Proof.
  assert (Forall (λ card, length card = 80%nat) [replicate 80 97; replicate 80 32])
    as Hcards by (repeat constructor).
  split; [exact Hcards |]. split; [reflexivity |].
  exact (disassemble_injective _ _ Hcards Hcards eq_refl).
Defined.

(** ** More on the pipelines *)

Lemma run_Reformat (cardfile : list (list rune)) :
  run (S35_Reformat cardfile) = run (S34_ASSEMBLE (card_stream cardfile)).
Proof.
  unfold S35_Reformat, run, bind.
  rewrite (spawn_finished _ _ (run_DISASSEMBLE cardfile)).
  by rewrite (spawn_finished _ _ (run_COPY _)).
Qed.

Lemma run_ConwayProblem (cardfile : list (list rune)) :
  run (S36_ConwayProblem cardfile)
  = run (S34_ASSEMBLE (squash true (card_stream cardfile))).
Proof.
  unfold S36_ConwayProblem, run, bind.
  rewrite (spawn_finished _ _ (run_DISASSEMBLE cardfile)).
  by rewrite (spawn_finished _ _ (run_SQUASH_EX _)).
Qed.

Lemma run_ASSEMBLE_lines (X : list rune) :
  ∃ ls, run (S34_ASSEMBLE X) = finished (map string_of_runes ls)
        ∧ Forall (λ l, length l = 125%nat) ls
        ∧ concat ls = X ++ replicate (125 * length ls - length X) space
        ∧ (length X ≤ 125 * length ls < length X + 125)%nat.
Proof.
  destruct (lines_and_rest X) as (ls & tail & -> & Hls & Htail).
  destruct (printed_lines ls tail Hls Htail) as (ls' & Heq & Hls' & Hcat & Hlen).
  exists ls'. by rewrite run_ASSEMBLE, Heq.
Qed.

(** X14. For every card file, S35_Reformat prints what ASSEMBLE prints for
    the stream DISASSEMBLE sends (COPY in between changes nothing): lines of
    exactly 125 values which, put end to end, are that stream followed by
    fewer than 125 spaces. *)
Theorem reformat_lines (cardfile : list (list rune)) :
  run (S35_Reformat cardfile) = run (ASSEMBLE_of_DISASSEMBLE cardfile)
  ∧ ∃ ls, run (S35_Reformat cardfile) = finished (map string_of_runes ls)
          ∧ Forall (λ l, length l = 125%nat) ls
          ∧ concat ls
            = sent (run (S33_DISASSEMBLE cardfile))
                ++ replicate (125 * length ls
                              - length (sent (run (S33_DISASSEMBLE cardfile)))) space
          ∧ (125 * length ls
             < length (sent (run (S33_DISASSEMBLE cardfile))) + 125)%nat.
Proof.
  rewrite run_Reformat, run_DISASSEMBLE, sent_finished. split.
  - unfold ASSEMBLE_of_DISASSEMBLE, run, bind.
    by rewrite (spawn_finished _ _ (run_DISASSEMBLE cardfile)).
  - destruct (run_ASSEMBLE_lines (card_stream cardfile))
      as (ls & Hrun & Hls & Hcat & Hlen).
    exists ls. repeat split; [done | done | done | lia].
Qed.

(** X15. For every card file, S36_ConwayProblem prints what ASSEMBLE prints
    for the stream S32_SQUASH_EX sends on the stream DISASSEMBLE sends:
    lines of exactly 125 values which, put end to end, are the squashed
    stream followed by fewer than 125 spaces. *)
Theorem conway_lines (cardfile : list (list rune)) :
  ∃ ls, run (S36_ConwayProblem cardfile) = finished (map string_of_runes ls)
        ∧ Forall (λ l, length l = 125%nat) ls
        ∧ concat ls
          = sent (run (S32_SQUASH_EX (sent (run (S33_DISASSEMBLE cardfile)))))
              ++ replicate
                   (125 * length ls
                    - length (sent (run (S32_SQUASH_EX
                                           (sent (run (S33_DISASSEMBLE cardfile)))))))
                   space
        ∧ (125 * length ls
           < length (sent (run (S32_SQUASH_EX (sent (run (S33_DISASSEMBLE cardfile))))))
             + 125)%nat.
Proof.
  rewrite run_ConwayProblem, run_DISASSEMBLE, sent_finished.
  rewrite run_SQUASH_EX, sent_finished.
  destruct (run_ASSEMBLE_lines (squash true (card_stream cardfile)))
    as (ls & Hrun & Hls & Hcat & Hlen).
  exists ls. repeat split; [done | done | done | lia].
Qed.

(** X16. In Conway's problem the cards are squashed one by one: the space
    DISASSEMBLE sends after each card keeps a marker that ends a card from
    being paired with a marker that starts the next, so the squashed stream
    of a card file is that of its first part followed by that of the rest. *)
Theorem conway_cards_apart (before after : list (list rune)) :
  run (S32_SQUASH_EX (sent (run (S33_DISASSEMBLE (before ++ after)))))
  = finished
      (sent (run (S32_SQUASH_EX (sent (run (S33_DISASSEMBLE before)))))
         ++ sent (run (S32_SQUASH_EX (sent (run (S33_DISASSEMBLE after)))))).
Proof.
  rewrite !run_DISASSEMBLE, !sent_finished, !run_SQUASH_EX, !sent_finished.
  rewrite card_stream_app, squash_app by apply card_stream_last.
  by rewrite <- (squash_settled true (card_stream before))
    by apply card_stream_last.
Qed.

(** X17. The stream DISASSEMBLE sends never ends in a marker, so on it the
    two squash processes agree: S36_ConwayProblem would print the same with
    S32_SQUASH in the place of S32_SQUASH_EX. *)
Theorem conway_policy_irrelevant (cardfile : list (list rune)) :
  last (sent (run (S33_DISASSEMBLE cardfile))) ≠ Some asterisk
  ∧ run (S32_SQUASH (sent (run (S33_DISASSEMBLE cardfile))))
    = run (S32_SQUASH_EX (sent (run (S33_DISASSEMBLE cardfile)))).
Proof.
  rewrite run_DISASSEMBLE, sent_finished, run_SQUASH, run_SQUASH_EX.
  split; [apply card_stream_last |].
  by rewrite (squash_settled true) by apply card_stream_last.
Qed.

(** X18. On a card file without any marker S36_ConwayProblem prints exactly
    what S35_Reformat prints. *)
Theorem conway_without_markers (cardfile : list (list rune)) :
  Forall (Forall (λ c, c ≠ asterisk)) cardfile →
  run (S36_ConwayProblem cardfile) = run (S35_Reformat cardfile).
Proof.
  intros Hfree. rewrite run_ConwayProblem, run_Reformat.
  rewrite squash_marker_free; [done |].
  unfold card_stream. induction Hfree as [|card cardfile Hcard _ IH]; [done |].
  cbn [flat_map]. rewrite !Forall_app. repeat split; [| | done].
  - by apply Forall_take.
  - by repeat constructor.
Qed.

Lemma conway_without_markers_witness :
  Forall (Forall (λ c, c ≠ asterisk)) [replicate 80 97; [98; 99]]
  ∧ run (S36_ConwayProblem [replicate 80 97; [98; 99]])
    = run (S35_Reformat [replicate 80 97; [98; 99]]).
Proof.
  assert (Forall (Forall (λ c, c ≠ asterisk)) [replicate 80 97; [98; 99]])
    as Hfree.
  { constructor; [apply Forall_replicate; discriminate |].
    repeat constructor; discriminate. }
  split; [exact Hfree |].
  exact (conway_without_markers _ Hfree).
Defined.

(** ** The state of the output channel *)

Section idle_facts.
Context {E : Type}.

Lemma idle_ret {A} (a : A) : idle (E:=E) (ret a).
Proof. intros ch _. left. by exists a. Qed.

Lemma idle_panic {A} : idle (E:=E) (A:=A) panic.
Proof. intros ch _. by right. Qed.

Lemma send_closed (v : E) (ch : chan E) : closed ch = true → send v ch = Panic ch.
Proof. intros Hch. unfold send. by rewrite Hch. Qed.

Lemma close_closed (ch : chan E) : closed ch = true → close ch = Panic ch.
Proof. intros Hch. unfold close. by rewrite Hch. Qed.

Lemma idle_send (v : E) : idle (send v).
Proof. intros ch Hch. right. by apply send_closed. Qed.

Lemma idle_bind {A B} (m : proc E A) (k : A → proc E B) :
  idle m → (∀ a, idle (k a)) → idle (bind m k).
Proof.
  intros Hm Hk ch Hch. unfold bind.
  destruct (Hm ch Hch) as [[a ->]| ->]; [by apply Hk | by right].
Qed.

Lemma idle_when (b : bool) (m : proc E unit) : idle m → idle (when b m).
Proof. destruct b; [done | intros _; apply idle_ret]. Qed.

Lemma idle_index (s : list rune) (i : Z) : idle (E:=E) (index s i).
Proof.
  unfold index. repeat case_match; first [apply idle_ret | apply idle_panic].
Qed.

Lemma idle_store (s : list rune) (i : Z) (c : rune) : idle (E:=E) (store s i c).
Proof.
  unfold store. case_match; [apply idle_ret | apply idle_panic].
Qed.

Lemma idle_for_count {S} (n : nat) (i : Z) (body : Z → S → proc E S) (st : S) :
  (∀ j s, idle (body j s)) → idle (for_count n i body st).
Proof.
  intros Hbody. revert i st. induction n as [|n IH]; intros i st.
  - apply idle_ret.
  - simpl. apply idle_bind; [apply Hbody | intros st'; apply IH].
Qed.

Lemma idle_spawn {E'} (p : proc E' unit) : idle (E:=E) (spawn p).
Proof.
  unfold spawn. repeat case_match; first [apply idle_ret | apply idle_panic].
Qed.

Lemma then_panics {A B} (m : proc E A) (k : A → proc E B) (ch : chan E) :
  idle m → (∀ a, k a ch = Panic ch) → closed ch = true → bind m k ch = Panic ch.
Proof.
  intros Hm Hk Hch. unfold bind.
  by destruct (Hm ch Hch) as [[a ->]| ->].
Qed.

Lemma then_close_open (m : proc E unit) (vs : list E) (ch : chan E) :
  emits m vs () → closed ch = false →
  (m ;; close) ch = Ok () (ch ++ map Send vs ++ [Close]).
Proof.
  intros Hm Hch. unfold bind. rewrite (Hm ch Hch). unfold close.
  by rewrite closed_app, Hch, closed_sends, <- app_assoc.
Qed.
End idle_facts.

Lemma idle_COPY_loop (west : list rune) : idle (COPY_loop west).
Proof.
  induction west as [|c west IH]; [apply idle_ret |].
  simpl. apply idle_bind; [apply idle_send | done].
Qed.

Ltac idle_steps :=
  repeat match goal with
    | |- idle (ret _) => apply idle_ret
    | |- idle (send _) => apply idle_send
    | |- idle (when _ _) => apply idle_when
    | |- idle (bind _ _) => apply idle_bind; [| intros ?]
    | |- idle (if ?b then _ else _) => destruct b
    | |- idle (store _ _ _) => apply idle_store
    | |- idle (index _ _) => apply idle_index
    end.

Lemma idle_SQUASH_loop (west : list rune) : idle (SQUASH_loop west).
Proof.
  induction west as [|c west1 IH1 IH2] using list_pair_ind; [apply idle_ret |].
  cbn [SQUASH_loop]. destruct west1 as [|d west2].
  - idle_steps; done.
  - specialize (IH2 d west2 eq_refl). idle_steps; done.
Qed.

Lemma idle_SQUASH_EX_loop (west : list rune) : idle (SQUASH_EX_loop west).
Proof.
  induction west as [|c west1 IH1 IH2] using list_pair_ind; [apply idle_ret |].
  cbn [SQUASH_EX_loop]. destruct west1 as [|d west2].
  - idle_steps; done.
  - specialize (IH2 d west2 eq_refl). idle_steps; done.
Qed.

Lemma idle_DISASSEMBLE_loop (cardfile : list (list rune)) (cardimage : list rune) :
  idle (DISASSEMBLE_loop cardfile cardimage).
Proof.
  revert cardimage. induction cardfile as [|tmp cardfile IH]; intros cardimage.
  - apply idle_ret.
  - cbn [DISASSEMBLE_loop]. cbv zeta.
    apply idle_bind; [| intros _; apply idle_bind; [apply idle_send | intros _; apply IH]].
    apply idle_for_count. intros j s. idle_steps.
Qed.

Lemma idle_ASSEMBLE_loop (X li : list rune) (i : Z) : idle (ASSEMBLE_loop X li i).
Proof.
  revert li i. induction X as [|c X IH]; intros li i; [apply idle_ret |].
  cbn [ASSEMBLE_loop]. cbv zeta. idle_steps; apply IH.
Qed.

Lemma ASSEMBLE_closed (X : list rune) (ch : chan string) :
  closed ch = true → S34_ASSEMBLE X ch = Panic ch.
Proof.
  intros Hch. unfold S34_ASSEMBLE. cbv zeta.
  apply then_panics; [apply idle_ASSEMBLE_loop | | done].
  intros [li i]. apply then_panics; [| intros; by apply close_closed | done].
  destruct (i >? 0); [| apply idle_ret].
  apply idle_bind; [| intros; apply idle_send].
  apply idle_for_count. intros j s. apply idle_store.
Qed.

Lemma ASSEMBLE_frame (X : list rune) (ch : chan string) :
  closed ch = false →
  S34_ASSEMBLE X ch
  = Ok () (ch ++ map Send (sent (run (S34_ASSEMBLE X))) ++ [Close]).
Proof.
  intros Hch. destruct (lines_and_rest X) as (ls & tail & -> & Hls & Htail).
  by rewrite run_ASSEMBLE, sent_finished, ASSEMBLE_open.
Qed.

(** X19. A process given an output channel that is closed already panics,
    at its first send or at its close, and nothing is added to the channel:
    so for COPY, both SQUASH processes, DISASSEMBLE and ASSEMBLE on every
    input, and for the two pipelines, whose stages in between run on
    channels of their own. *)
Theorem closed_output_panics
    (west : list rune) (cardfile : list (list rune)) (X : list rune)
    (east : chan rune) (lineprinter : chan string) :
  closed east = true →
  closed lineprinter = true →
  S31_COPY west east = Panic east
  ∧ S32_SQUASH west east = Panic east
  ∧ S32_SQUASH_EX west east = Panic east
  ∧ S33_DISASSEMBLE cardfile east = Panic east
  ∧ S34_ASSEMBLE X lineprinter = Panic lineprinter
  ∧ S35_Reformat cardfile lineprinter = Panic lineprinter
  ∧ S36_ConwayProblem cardfile lineprinter = Panic lineprinter.
Proof.
  intros Heast Hline. repeat split.
  - apply then_panics; [apply idle_COPY_loop | intros; by apply close_closed | done].
  - apply then_panics; [apply idle_SQUASH_loop | intros; by apply close_closed | done].
  - apply then_panics; [apply idle_SQUASH_EX_loop | intros; by apply close_closed | done].
  - apply then_panics;
      [apply idle_DISASSEMBLE_loop | intros; by apply close_closed | done].
  - by apply ASSEMBLE_closed.
  - unfold S35_Reformat, bind.
    rewrite (spawn_finished _ _ (run_DISASSEMBLE cardfile)).
    rewrite (spawn_finished _ _ (run_COPY _)). by apply ASSEMBLE_closed.
  - unfold S36_ConwayProblem, bind.
    rewrite (spawn_finished _ _ (run_DISASSEMBLE cardfile)).
    rewrite (spawn_finished _ _ (run_SQUASH_EX _)). by apply ASSEMBLE_closed.
Qed.

Lemma closed_output_panics_witness :
  closed [Send 97; @Close rune] = true
  ∧ closed [@Close string] = true
  ∧ S32_SQUASH_EX [42; 42; 98] [Send 97; Close] = Panic [Send 97; Close]
  ∧ S34_ASSEMBLE (replicate 130 97) [Close] = Panic [Close]
  ∧ S35_Reformat [replicate 80 97] [Close] = Panic [Close].
Proof.
  split; [reflexivity |]. split; [reflexivity |].
  destruct (closed_output_panics [42; 42; 98] [replicate 80 97] (replicate 130 97)
              [Send 97; Close] [Close] eq_refl eq_refl)
    as (_ & _ & Hex & _ & Hasm & Href & _).
  split; [exact Hex |]. split; [exact Hasm | exact Href].
Defined.

(** X20. A process given an open output channel that has carried values
    already does what it does on a fresh channel: it adds the values of that
    run after the earlier ones and closes the channel. *)
Theorem open_output_appends
    (west : list rune) (cardfile : list (list rune)) (X : list rune)
    (east : chan rune) (lineprinter : chan string) :
  closed east = false →
  closed lineprinter = false →
  S31_COPY west east
    = Ok () (east ++ map Send (sent (run (S31_COPY west))) ++ [Close])
  ∧ S32_SQUASH west east
    = Ok () (east ++ map Send (sent (run (S32_SQUASH west))) ++ [Close])
  ∧ S32_SQUASH_EX west east
    = Ok () (east ++ map Send (sent (run (S32_SQUASH_EX west))) ++ [Close])
  ∧ S33_DISASSEMBLE cardfile east
    = Ok () (east ++ map Send (sent (run (S33_DISASSEMBLE cardfile))) ++ [Close])
  ∧ S34_ASSEMBLE X lineprinter
    = Ok () (lineprinter ++ map Send (sent (run (S34_ASSEMBLE X))) ++ [Close])
  ∧ S35_Reformat cardfile lineprinter
    = Ok () (lineprinter ++ map Send (sent (run (S35_Reformat cardfile))) ++ [Close])
  ∧ S36_ConwayProblem cardfile lineprinter
    = Ok () (lineprinter
               ++ map Send (sent (run (S36_ConwayProblem cardfile))) ++ [Close]).
Proof.
  intros Heast Hline.
  rewrite run_COPY, run_SQUASH, run_SQUASH_EX, run_DISASSEMBLE, !sent_finished.
  rewrite run_Reformat, run_ConwayProblem.
  repeat split.
  - by apply then_close_open; [apply COPY_loop_emits |].
  - by apply then_close_open; [apply SQUASH_loop_emits |].
  - by apply then_close_open; [apply SQUASH_EX_loop_emits |].
  - by apply then_close_open; [apply DISASSEMBLE_loop_emits |].
  - by apply ASSEMBLE_frame.
  - unfold S35_Reformat, bind.
    rewrite (spawn_finished _ _ (run_DISASSEMBLE cardfile)).
    rewrite (spawn_finished _ _ (run_COPY _)). by apply ASSEMBLE_frame.
  - unfold S36_ConwayProblem, bind.
    rewrite (spawn_finished _ _ (run_DISASSEMBLE cardfile)).
    rewrite (spawn_finished _ _ (run_SQUASH_EX _)). by apply ASSEMBLE_frame.
Qed.

Lemma open_output_appends_witness :
  closed [@Send rune 120; Send 121] = false
  ∧ closed [Send "earlier line"] = false
  ∧ S32_SQUASH_EX [42; 42; 98] [Send 120; Send 121]
    = Ok () ([Send 120; Send 121]
               ++ map Send (sent (run (S32_SQUASH_EX [42; 42; 98]))) ++ [Close])
  ∧ S36_ConwayProblem [[42; 42]; [97]] [Send "earlier line"]
    = Ok () ([Send "earlier line"]
               ++ map Send (sent (run (S36_ConwayProblem [[42; 42]; [97]])))
               ++ [Close]).
Proof.
  split; [reflexivity |]. split; [reflexivity |].
  destruct (open_output_appends [42; 42; 98] [[42; 42]; [97]] []
              [Send 120; Send 121] [Send "earlier line"] eq_refl eq_refl)
    as (_ & _ & Hex & _ & _ & _ & Hconway).
  split; [exact Hex | exact Hconway].
Defined.
